(** * port_scanner.py: the partitioner, the probe, the batch scanner and
      the network scan, with the worker pools they run on.

    Ports and chunk counts are Python ints ([Z]); port lists are Python lists;
    the two result dictionaries are finite maps keyed by the host string.
    A call that can raise returns a [result]: the value, or the exception. *)

From stdpp Require Import gmap strings list fin_maps.
From Stdlib Require Import ZArith Lia Ascii.

Local Open Scope Z_scope.

(** ** Exceptions and results *)

(** The exception classes that reach this code.  All of them derive from
    [Exception], so an [except Exception] clause catches every one. *)
Inductive ExcClass :=
  | socket_timeout
  | ConnectionRefusedError
  | OSError
  | gaierror
  | OverflowError
  | MemoryError
  | ValueError
  | ZeroDivisionError
  | BrokenProcessPool.

(** An exception object: its class and what [str(e)] gives. *)
Record Exc := mkExc { exc_class : ExcClass; exc_str : string }.

Inductive result (A : Type) :=
  | Returned (a : A)
  | Raised (e : Exc).
Arguments Returned {A} a.
Arguments Raised {A} e.

Definition is_returned {A} (r : result A) : bool :=
  match r with Returned _ => true | Raised _ => false end.

(** ** Python list slicing and [range] *)

(** How a slice bound is read against a list of length [len]: a negative
    bound counts from the end, and every bound is cut to [0..len]. *)
Definition slice_bound (len i : Z) : Z :=
  if i <? 0 then Z.max 0 (len + i) else Z.min i len.

(** [l[a:b]] *)
Definition py_slice {A} (l : list A) (a b : Z) : list A :=
  let len := Z.of_nat (length l) in
  let lo := slice_bound len a in
  let hi := slice_bound len b in
  take (Z.to_nat (hi - lo)) (drop (Z.to_nat lo) l).

(** [l[a:]] *)
Definition py_slice_from {A} (l : list A) (a : Z) : list A :=
  drop (Z.to_nat (slice_bound (Z.of_nat (length l)) a)) l.

(** [range(n)] *)
Definition py_range (n : Z) : list Z :=
  Z.of_nat <$> seq 0 (Z.to_nat n).

(** ** divide_ports *)

Definition zero_division : Exc :=
  mkExc ZeroDivisionError "integer division or modulo by zero".

(** [a // b] on ints: floor division, raising on a zero divisor. *)
Definition py_floordiv (a b : Z) : result Z :=
  if b =? 0 then Raised zero_division else Returned (a / b).

Definition divide_ports (ports : list Z) (num_chunks : Z) : result (list (list Z)) :=
  let len := Z.of_nat (length ports) in
  let num_chunks := if num_chunks >? len then len else num_chunks in
  match py_floordiv len num_chunks with
  | Raised e => Raised e
  | Returned chunk_size =>
      Returned
        (((fun i => py_slice ports (i * chunk_size) ((i + 1) * chunk_size))
            <$> py_range num_chunks)
         ++ [py_slice_from ports (num_chunks * chunk_size)])
  end.

(** The chunk count after the clamp of a call with [1 <= n], as a number of
    chunks. *)
Definition clamped (ports : list Z) (n : Z) : nat :=
  Nat.min (Z.to_nat n) (length ports).

(** ** The world a scan runs in *)

(** What the address library, the operating system and the network do during
    one scan.  [network_hosts r] is what [ipaddress.ip_network(r).hosts()]
    enumerates (as strings), or the error the range is rejected with.
    [socket_create ip port] is [Some e] when creating the socket for the probe
    of [(ip, port)] raises [e]; [connect ip port] is [None] when the handshake
    completes and [Some e] when [connect] raises [e]; [worker_fault ip chunk]
    is [Some e] when the process pool cannot deliver the result of the unit
    [(ip, chunk)].  A world is fixed for the length of one scan: a second
    probe of the same [(ip, port)] meets what the first one met.  Every
    exception a socket operation raises derives from [Exception]; closing a
    socket and logging are taken to succeed. *)
Record World := mkWorld {
  network_hosts : string -> result (list string);
  socket_create : string -> Z -> option Exc;
  connect : string -> Z -> option Exc;
  worker_fault : string -> list Z -> option Exc
}.

(** ** PortScanner *)

Record PortScanner := mkPortScanner { timeout : Z }.

(** What [scan_port] hands back: [(is_open, error)]. *)
Definition probe := (bool * option string)%type.

(** [open_ports, errors] of one batch. *)
Definition batch := (list Z * list (Z * string))%type.

(** [settimeout] takes a timeout from 0 up to what its clock type holds in
    nanoseconds, 9223372036 seconds. *)
Definition timeout_limit : Z := 9223372037.

Definition scan_port (w : World) (self : PortScanner) (ip : string) (port : Z)
  : result probe :=
  match socket_create w ip port with
  | Some e => Raised e
  | None =>
      if timeout self <? 0 then Raised (mkExc ValueError "Timeout value out of range")
      else if timeout_limit <=? timeout self then
        Raised (mkExc OverflowError "timestamp too large to convert to C _PyTime_t")
      else
        match connect w ip port with
        | None => Returned (true, None)
        | Some e =>
            match exc_class e with
            | socket_timeout | ConnectionRefusedError => Returned (false, None)
            | _ => Returned (false, Some (exc_str e))
            end
        end
  end.

(** Truth value of [error] in [if error:]. *)
Definition truthy (error : option string) : bool :=
  match error with
  | None => false
  | Some msg => negb (String.eqb msg "")
  end.

(** The body of the loop over the futures of [scan_ports], for the future of
    [port] whose [result()] is [r]. *)
Definition scan_ports_collect (acc : batch) (port : Z) (r : result probe) : batch :=
  let '(open_ports, errors) := acc in
  match r with
  | Returned (is_open, error) =>
      let open_ports := if is_open then open_ports ++ [port] else open_ports in
      let errors :=
        match error with
        | Some msg => if truthy error then errors ++ [(port, msg)] else errors
        | None => errors
        end in
      (open_ports, errors)
  | Raised e => (open_ports, errors ++ [(port, exc_str e)])
  end.

Definition bad_max_workers : Exc :=
  mkExc ValueError "max_workers must be greater than 0".

(** [scan_ports], with the futures read in the order of the dictionary, that
    is in the order the ports were submitted. *)
Definition scan_ports (w : World) (self : PortScanner) (ip : string)
    (ports : list Z) (max_workers : Z) : result batch :=
  if max_workers <=? 0 then Raised bad_max_workers
  else
    Returned
      (foldl (fun acc port => scan_ports_collect acc port (scan_port w self ip port))
             ([], []) ports).

(** The loop of [scan_ports] from a given pair of lists. *)
Abbreviation batch_loop w self ip :=
  (foldl (fun acc port => scan_ports_collect acc port (scan_port w self ip port))).

(** ** NetworkScanner *)

Record NetworkScanner := mkNetworkScanner {
  ip_range : string;
  ports : list Z;
  num_processes : Z;
  max_workers : Z;
  port_scanner : PortScanner
}.

Definition NetworkScanner_init (ip_range : string) (ports : list Z)
    (num_processes max_workers : Z) : NetworkScanner :=
  mkNetworkScanner ip_range ports num_processes max_workers (mkPortScanner 1).

(** [open_ports_dict, errors_dict] *)
Definition dicts := (gmap string (list Z) * gmap string (list (Z * string)))%type.

Definition _scan_ip (w : World) (self : NetworkScanner) (ip : string)
    (port_range : list Z) : result batch :=
  scan_ports w (port_scanner self) ip port_range (max_workers self).

(** What [future.result()] gives for the unit [(ip, port_range)]. *)
Definition unit_result (w : World) (self : NetworkScanner)
    (u : string * list Z) : result batch :=
  match worker_fault w u.1 u.2 with
  | Some e => Raised e
  | None => _scan_ip w self u.1 u.2
  end.

(** [d[ip].extend(l)], the entry created first when [ip] is not yet a key. *)
Definition dict_extend {V} (d : gmap string (list V)) (ip : string) (l : list V)
  : gmap string (list V) :=
  <[ip := default [] (d !! ip) ++ l]> d.

(** The body of the loop over the futures of [scan_network]. *)
Definition scan_network_collect (acc : dicts) (u : string * list Z)
    (r : result batch) : dicts :=
  let '(open_ports_dict, errors_dict) := acc in
  match r with
  | Returned (open_ports, errors) =>
      ((match open_ports with
        | [] => open_ports_dict
        | _ => dict_extend open_ports_dict u.1 open_ports
        end),
       (match errors with
        | [] => errors_dict
        | _ => dict_extend errors_dict u.1 errors
        end))
  | Raised _ => acc
  end.

(** The units submitted: [for ip in network.hosts() for port_range in
    port_ranges]. *)
Definition scan_units (hosts : list string) (port_ranges : list (list Z))
  : list (string * list Z) :=
  ip ← hosts; port_range ← port_ranges; [(ip, port_range)].

(** The aggregation loop over a list of units, read in submission order. *)
Definition gather (w : World) (self : NetworkScanner)
    (units : list (string * list Z)) (acc : dicts) : dicts :=
  foldl (fun acc u => scan_network_collect acc u (unit_result w self u)) acc units.

(** The process pool takes a number of processes from 1 up to one below the
    largest C int: its call queue is sized one above the number. *)
Definition process_limit : Z := 2147483647.

Definition too_many_processes : Exc :=
  mkExc OverflowError "Python int too large to convert to C int".

Definition scan_network (w : World) (self : NetworkScanner)
    (port_ranges : list (list Z)) : result dicts :=
  match network_hosts w (ip_range self) with
  | Raised e => Raised e
  | Returned hosts =>
      if num_processes self <=? 0 then Raised bad_max_workers
      else if process_limit <=? num_processes self then Raised too_many_processes
      else Returned (gather w self (scan_units hosts port_ranges) (∅, ∅))
  end.

(** ** The worker pools *)

(** A pool of [workers] workers runs the submitted calls; the submitting
    thread then walks the futures in submission order and blocks on each
    [result()].  A scheduler decides, step by step, which of three things
    happens next. *)
Inductive event :=
  | Start              (* a free worker takes the oldest queued call *)
  | Finish (i : nat)   (* the running call [i] completes *)
  | Collect.           (* the loop reads the result of its next future *)

Section Pool.
Context {T R A : Type}.
Variable run : T -> R.             (* what [result()] gives for a call *)
Variable body : A -> T -> R -> A.  (* the loop body *)
Variable workers : nat.
Variable tasks : list T.

Record pool := mkPool {
  queued : list nat;        (* submitted, not started, oldest first *)
  running : list nat;
  finished : gmap nat R;    (* the resolved futures *)
  cursor : nat;             (* futures already read by the loop *)
  acc : A
}.

Definition pool_init (a0 : A) : pool :=
  mkPool (seq 0 (length tasks)) [] ∅ 0%nat a0.

Definition pool_step (s : pool) (e : event) : option pool :=
  match e with
  | Start =>
      match queued s with
      | i :: q =>
          if decide (length (running s) < workers)%nat
          then Some (mkPool q (running s ++ [i]) (finished s) (cursor s) (acc s))
          else None
      | [] => None
      end
  | Finish i =>
      if decide (i ∈ running s) then
        match tasks !! i with
        | Some t =>
            Some (mkPool (queued s) (filter (fun j => j ≠ i) (running s))
                         (<[i := run t]> (finished s)) (cursor s) (acc s))
        | None => None
        end
      else None
  | Collect =>
      match tasks !! cursor s, finished s !! cursor s with
      | Some t, Some r =>
          Some (mkPool (queued s) (running s) (finished s)
                       (S (cursor s)) (body (acc s) t r))
      | _, _ => None
      end
  end.

Fixpoint pool_exec (sched : list event) (s : pool) : option pool :=
  match sched with
  | [] => Some s
  | e :: sched =>
      match pool_step s e with
      | Some s' => pool_exec sched s'
      | None => None
      end
  end.

(** The loop is over: every future has been read. *)
Definition completed (s : pool) : bool :=
  bool_decide (cursor s = length tasks).

(** The value the loop ends with under the schedule [sched]; [None] when
    [sched] is not a run of the pool up to the end of the loop. *)
Definition pool_run (a0 : A) (sched : list event) : option A :=
  match pool_exec sched (pool_init a0) with
  | Some s => if completed s then Some (acc s) else None
  | None => None
  end.

(** Every call is resolved. *)
Definition all_resolved (s : pool) : Prop :=
  ∀ i, (i < length tasks)%nat → is_Some (finished s !! i).

(** The loop with the futures read in submission order, each already
    resolved. *)
Definition in_order (a0 : A) (l : list T) : A :=
  foldl (fun a t => body a t (run t)) a0 l.

(** What is left to do: two steps for a queued call, one for a running one,
    one for each future still to be read. *)
Definition pool_measure (s : pool) : nat :=
  (2 * length (queued s) + length (running s) + (length tasks - cursor s))%nat.

(** What holds of every state a schedule can reach from [pool_init a0]. *)
Record pool_inv (a0 : A) (s : pool) : Prop := mkPoolInv {
  inv_cursor : (cursor s ≤ length tasks)%nat;
  inv_finished : ∀ i r, finished s !! i = Some r → ∃ t, tasks !! i = Some t ∧ r = run t;
  inv_read : ∀ i, (i < cursor s)%nat → is_Some (finished s !! i);
  inv_acc : acc s = in_order a0 (take (cursor s) tasks);
  inv_where : ∀ i, (i < length tasks)%nat →
                i ∈ queued s ∨ i ∈ running s ∨ is_Some (finished s !! i);
  inv_queued : ∀ i, i ∈ queued s → (i < length tasks)%nat;
  inv_running : ∀ i, i ∈ running s → (i < length tasks)%nat
}.
End Pool.

Arguments mkPool {R A}.
Arguments queued {R A}.
Arguments running {R A}.
Arguments finished {R A}.
Arguments cursor {R A}.
Arguments acc {R A}.

(** [scan_ports] on its thread pool, under a schedule. *)
Definition scan_ports_pool (w : World) (self : PortScanner) (ip : string)
    (ports : list Z) (max_workers : Z) (sched : list event) : option (result batch) :=
  if max_workers <=? 0 then Some (Raised bad_max_workers)
  else
    Returned <$>
      pool_run (scan_port w self ip) scan_ports_collect (Z.to_nat max_workers)
               ports ([], []) sched.

(** [scan_network] on its process pool, under a schedule. *)
Definition scan_network_pool (w : World) (self : NetworkScanner)
    (port_ranges : list (list Z)) (sched : list event) : option (result dicts) :=
  match network_hosts w (ip_range self) with
  | Raised e => Some (Raised e)
  | Returned hosts =>
      if num_processes self <=? 0 then Some (Raised bad_max_workers)
      else if process_limit <=? num_processes self then Some (Raised too_many_processes)
      else
        Returned <$>
          pool_run (unit_result w self) scan_network_collect
                   (Z.to_nat (num_processes self))
                   (scan_units hosts port_ranges) (∅, ∅) sched
  end.

(** ** What a probe's outcome is, and what a batch does with it *)

Inductive ProbeOutcome :=
  | Open
  | Closed
  | Errored (msg : string).

(** The outcome a returned pair stands for; [(True, msg)] stands for none. *)
Definition outcome_of (p : probe) : option ProbeOutcome :=
  match p with
  | (true, None) => Some Open
  | (false, None) => Some Closed
  | (false, Some msg) => Some (Errored msg)
  | (true, Some _) => None
  end.

(** The sequential schedule: each call is started, finished and read in
    turn. *)
Definition sequential (k : nat) : list event :=
  i ← seq 0 k; [Start; Finish i; Collect].

(** Counting the probes of a batch by what [scan_port] gave for them. *)
Definition is_closed (r : result probe) : bool :=
  match r with Returned (false, None) => true | _ => false end.

(** An Errored outcome whose cause string is empty. *)
Definition is_blank_error (r : result probe) : bool :=
  match r with Returned (false, Some msg) => String.eqb msg "" | _ => false end.

Definition count_probes (f : result probe -> bool) (w : World) (self : PortScanner)
    (ip : string) (ports : list Z) : nat :=
  length (filter (fun port => f (scan_port w self ip port) = true) ports).

(** ** Some worlds *)

Definition refused : Exc := mkExc ConnectionRefusedError "[Errno 111] Connection refused".
Definition timed_out : Exc := mkExc socket_timeout "timed out".
Definition unreachable : Exc := mkExc OSError "[Errno 101] Network is unreachable".
Definition too_many_files : Exc := mkExc OSError "[Errno 24] Too many open files".
Definition out_of_memory : Exc := mkExc MemoryError "".
Definition broken_pool : Exc :=
  mkExc BrokenProcessPool
        "A process in the process pool was terminated abruptly while the future was running or pending.".

(** One host, a listener on port 2 only, every other port refusing. *)
Definition loopback_world : World :=
  mkWorld (fun _ => Returned ["127.0.0.1"%string])
          (fun _ _ => None)
          (fun _ port => if port =? 2 then None else Some refused)
          (fun _ _ => None).

(** Port 80 listens, 81 cannot get a socket, 82 is unreachable, 83 times out,
    every other port refuses; the unit of host 10.0.0.2 with chunk [80; 81] is
    lost with its worker process. *)
Definition mixed_world : World :=
  mkWorld (fun _ => Returned ["10.0.0.1"%string; "10.0.0.2"%string])
          (fun _ port => if port =? 81 then Some too_many_files else None)
          (fun _ port =>
             if port =? 80 then None
             else if port =? 82 then Some unreachable
             else if port =? 83 then Some timed_out
             else Some refused)
          (fun ip chunk =>
             if bool_decide (ip = "10.0.0.2"%string ∧ chunk = [80; 81])
             then Some broken_pool else None).

(** No socket can be created. *)
Definition exhausted_world : World :=
  mkWorld (fun _ => Returned ["10.0.0.1"%string])
          (fun _ _ => Some too_many_files)
          (fun _ _ => None)
          (fun _ _ => None).

(** Every connect fails on an exception without a message. *)
Definition blank_fault_world : World :=
  mkWorld (fun _ => Returned ["10.0.0.1"%string])
          (fun _ _ => None)
          (fun _ _ => Some out_of_memory)
          (fun _ _ => None).

(** ** What a batch holds, probe by probe *)

(** The test [if is_open:] on what [result()] gave. *)
Definition is_open_result (r : result probe) : bool :=
  match r with Returned (true, _) => true | _ => false end.

(** The error entry the loop of [scan_ports] appends for [port], if any. *)
Definition error_entry (port : Z) (r : result probe) : option (Z * string) :=
  match r with
  | Returned (_, Some msg) => if truthy (Some msg) then Some (port, msg) else None
  | Returned (_, None) => None
  | Raised e => Some (port, exc_str e)
  end.

(** The ports of a list whose probe passes [if is_open:], in the order of
    the list. *)
Definition batch_open (w : World) (self : PortScanner) (ip : string)
    (ports : list Z) : list Z :=
  filter (fun port => is_open_result (scan_port w self ip port) = true) ports.

(** The error entries of the ports of a list, in the order of the list. *)
Definition batch_errors (w : World) (self : PortScanner) (ip : string)
    (ports : list Z) : list (Z * string) :=
  omap (fun port => error_entry port (scan_port w self ip port)) ports.


(** What the loop of [scan_network] does to one dictionary with the list [l]
    a unit came back with: [if l:] and then the extend. *)
Definition dict_add {V} (d : gmap string (list V)) (ip : string) (l : list V)
  : gmap string (list V) :=
  match l with [] => d | _ => dict_extend d ip l end.

(** Entries are non-empty lists, under keys taken from [hosts]. *)
Definition well_keyed {V} (hosts : list string) (d : gmap string (list V)) : Prop :=
  ∀ ip ps, d !! ip = Some ps → ps ≠ [] ∧ ip ∈ hosts.

(** ** calculate_optimal_chunks *)

(** [cpu_count] is what [multiprocessing.cpu_count()] gives. *)
Definition calculate_optimal_chunks (cpu_count : Z) (ports : list Z) : Z :=
  Z.max 1 (cpu_count / 2).

(** ** The scan part of main *)

(** [c in s], for a one-character [c]. *)
Fixpoint contains (c : ascii) (s : string) : bool :=
  match s with
  | EmptyString => false
  | String c' s' => if Ascii.eqb c' c then true else contains c s'
  end.

(** [s.split(sep)], for a one-character separator.  The separators used,
    colon and comma, are ASCII, and no byte of a longer UTF-8 sequence is
    ASCII, so splitting the bytes splits the text. *)
Fixpoint split_on (sep : ascii) (s : string) : list string :=
  match s with
  | EmptyString => [EmptyString]
  | String c s' =>
      if Ascii.eqb c sep then EmptyString :: split_on sep s'
      else
        match split_on sep s' with
        | piece :: pieces => String c piece :: pieces
        | [] => [String c EmptyString]
        end
  end.

(** [sep.join(pieces)] *)
Fixpoint join_with (sep : ascii) (pieces : list string) : string :=
  match pieces with
  | [] => EmptyString
  | [piece] => piece
  | piece :: pieces => piece +:+ String sep (join_with sep pieces)
  end.

(** [list(range(a, b))].  A range of 2^63 items or more has no length, and a
    list of 2^60 items or more no size in bytes; below that the memory is
    taken to hold the list. *)
Definition py_range2 (a b : Z) : result (list Z) :=
  if 2 ^ 63 <=? b - a then
    Raised (mkExc OverflowError "Python int too large to convert to C ssize_t")
  else if 2 ^ 60 <=? b - a then Raised (mkExc MemoryError EmptyString)
  else Returned (seqZ a (b - a)).

(** [list(map(int, pieces))]: the first piece that is no int raises. *)
Fixpoint int_all (int : string -> result Z) (pieces : list string)
  : result (list Z) :=
  match pieces with
  | [] => Returned []
  | piece :: pieces =>
      match int piece with
      | Raised e => Raised e
      | Returned v =>
          match int_all int pieces with
          | Raised e => Raised e
          | Returned vs => Returned (v :: vs)
          end
      end
  end.

Definition too_many_values : Exc :=
  mkExc ValueError "too many values to unpack (expected 2)".

Definition not_enough_values (got : string) : Exc :=
  mkExc ValueError ("not enough values to unpack (expected 2, got " +:+ got +:+ ")").

(** [port_start, port_end = map(int, pieces)]: the ints are made one by one
    as the unpacking asks for them, a third one to see that there is none. *)
Definition unpack_two (int : string -> result Z) (pieces : list string)
  : result (Z * Z) :=
  match pieces with
  | [] => Raised (not_enough_values "0")
  | first :: rest =>
      match int first with
      | Raised e => Raised e
      | Returned port_start =>
          match rest with
          | [] => Raised (not_enough_values "1")
          | second :: rest =>
              match int second with
              | Raised e => Raised e
              | Returned port_end =>
                  match rest with
                  | [] => Returned (port_start, port_end)
                  | third :: _ =>
                      match int third with
                      | Raised e => Raised e
                      | Returned _ => Raised too_many_values
                      end
                  end
              end
          end
      end
  end.

(** The parsing of the port range input in [main]; [int] is the builtin
    [int] on strings. *)
Definition parse_ports (int : string -> result Z) (port_range_input : string)
  : result (list Z) :=
  if contains ":" port_range_input then
    match unpack_two int (split_on ":" port_range_input) with
    | Raised e => Raised e
    | Returned (port_start, port_end) => py_range2 port_start (port_end + 1)
    end
  else if contains "," port_range_input then
    int_all int (split_on "," port_range_input)
  else
    match int port_range_input with
    | Returned port => Returned [port]
    | Raised e =>
        match exc_class e with
        | ValueError => py_range2 1 65536
        | _ => Raised e
        end
    end.

(** [s or default] *)
Definition or_default (s default : string) : string :=
  match s with EmptyString => default | _ => s end.

(** [int(s) if s else default] *)
Definition int_or_default (int : string -> result Z) (s : string) (default : Z)
  : result Z :=
  match s with EmptyString => Returned default | _ => int s end.

(** [main] from the inputs to the result of the scan: the four answers
    typed in, the ports parsed, divided and scanned.  [Raised e] is the
    exception the [except Exception] of [main] then logs. *)
Definition main_scan (w : World) (int : string -> result Z) (cpu_count : Z)
    (ip_range_input port_range_input num_processes_input max_workers_input : string)
  : result dicts :=
  let ip_range := or_default ip_range_input "127.0.0.1/32" in
  let port_range_input := or_default port_range_input "1:65535" in
  match int_or_default int num_processes_input (Z.max 1 cpu_count) with
  | Raised e => Raised e
  | Returned num_processes =>
      match int_or_default int max_workers_input 100 with
      | Raised e => Raised e
      | Returned max_workers =>
          match parse_ports int port_range_input with
          | Raised e => Raised e
          | Returned ports =>
              let num_chunks := num_processes in
              match divide_ports ports num_chunks with
              | Raised e => Raised e
              | Returned port_ranges =>
                  scan_network w
                    (NetworkScanner_init ip_range ports num_processes max_workers)
                    port_ranges
              end
          end
      end
  end.

(** An [int] for the examples: it reads plain decimal numerals, and raises
    ValueError on anything else. *)
Definition digit_value (c : ascii) : option Z :=
  let n := Z.of_nat (nat_of_ascii c) in
  if (48 <=? n) && (n <=? 57) then Some (n - 48) else None.

Fixpoint decimal_from (acc : Z) (s : string) : option Z :=
  match s with
  | EmptyString => Some acc
  | String c s' =>
      match digit_value c with
      | Some d => decimal_from (10 * acc + d) s'
      | None => None
      end
  end.

Definition decimal_int (s : string) : result Z :=
  match s with
  | EmptyString => Raised (mkExc ValueError "invalid literal for int() with base 10")
  | _ =>
      match decimal_from 0 s with
      | Some v => Returned v
      | None => Raised (mkExc ValueError "invalid literal for int() with base 10")
      end
  end.

(** * Properties *)

(** ** divide_ports *)

Example divide_ports_7_3 :
  divide_ports [1; 2; 3; 4; 5; 6; 7] 3 = Returned [[1; 2]; [3; 4]; [5; 6]; [7]].
Proof. reflexivity. Qed.

Example divide_ports_clamped :
  divide_ports [1; 2] 9 = Returned [[1]; [2]; []].
Proof. reflexivity. Qed.

Example divide_ports_negative_count :
  divide_ports [1; 2; 3; 4; 5] (-2) = Returned [[]].
Proof. reflexivity. Qed.

(** The chunks of [sz] elements cut from the front of [l], [m] of them. *)
Lemma concat_front_chunks {A} (l : list A) (sz m : nat) :
  concat ((fun i => take sz (drop (i * sz) l)) <$> seq 0 m) = take (m * sz) l.
Proof.
  induction m as [|m IH]; [done|].
  rewrite seq_S, fmap_app, concat_app, IH. simpl.
  rewrite app_nil_r, take_take_drop. f_equal. lia.
Qed.

Lemma slice_bound_inside (len i : Z) : 0 ≤ i ≤ len → slice_bound len i = i.
Proof. intros ?. unfold slice_bound. case_match; lia. Qed.

Lemma py_slice_inside {A} (l : list A) (a b : nat) :
  (a ≤ b ≤ length l)%nat →
  py_slice l (Z.of_nat a) (Z.of_nat b) = take (b - a) (drop a l).
Proof.
  intros ?. unfold py_slice.
  rewrite !slice_bound_inside by lia.
  f_equal; [lia | f_equal; lia].
Qed.

Lemma py_slice_from_inside {A} (l : list A) (a : nat) :
  (a ≤ length l)%nat → py_slice_from l (Z.of_nat a) = drop a l.
Proof.
  intros ?. unfold py_slice_from.
  rewrite slice_bound_inside by lia. f_equal; lia.
Qed.

(** What [divide_ports] computes on a non-empty list, in take-and-drop form. *)
Lemma divide_ports_take_drop (ports : list Z) (n : Z) :
  ports ≠ [] → 1 ≤ n →
  let m := clamped ports n in
  let sz := (length ports / m)%nat in
  divide_ports ports n =
    Returned (((fun i => take sz (drop (i * sz) ports)) <$> seq 0 m)
              ++ [drop (m * sz) ports]).
Proof.
  intros Hne Hn m sz.
  assert (0 < length ports)%nat as Hlen by (destruct ports; [done | simpl; lia]).
  assert (1 ≤ m ≤ length ports)%nat as Hm by (unfold m, clamped; lia).
  assert (m * sz ≤ length ports)%nat as Hmsz.
  { unfold sz. pose proof (Nat.Div0.mul_div_le (length ports) m). lia. }
  unfold divide_ports.
  assert ((if n >? Z.of_nat (length ports) then Z.of_nat (length ports) else n)
          = Z.of_nat m) as ->.
  { unfold m, clamped. case_match; lia. }
  unfold py_floordiv.
  assert ((Z.of_nat m =? 0) = false) as -> by lia.
  rewrite <- Nat2Z.inj_div. fold sz.
  f_equal. f_equal.
  - unfold py_range. rewrite Nat2Z.id, <- list_fmap_compose.
    apply list_fmap_ext. intros i j Hj%lookup_seq. simpl in Hj. destruct Hj as [-> Hj].
    simpl.
    replace (Z.of_nat i * Z.of_nat sz) with (Z.of_nat (i * sz)) by lia.
    replace ((Z.of_nat i + 1) * Z.of_nat sz) with (Z.of_nat ((i + 1) * sz)) by lia.
    rewrite py_slice_inside by nia. f_equal. lia.
  - f_equal.
    replace (Z.of_nat m * Z.of_nat sz) with (Z.of_nat (m * sz)) by lia.
    by rewrite py_slice_from_inside.
Qed.

(** C1, as amended: for every non-empty port list and every chunk count
    n >= 1, [divide_ports] returns chunks whose concatenation is the port list
    itself, so the multiset union of the chunks equals the list exactly: no
    port is duplicated and none is lost. *)
Theorem divide_ports_complete (ports : list Z) (n : Z) :
  ports ≠ [] → 1 ≤ n →
  ∃ chunks, divide_ports ports n = Returned chunks
            ∧ concat chunks = ports
            ∧ concat chunks ≡ₚ ports.
Proof.
  intros Hne Hn. eexists. split; [by apply divide_ports_take_drop|].
  assert (∀ l : list Z, l = ports → l = ports ∧ l ≡ₚ ports) as H by (by intros ? ->).
  apply H.
  rewrite concat_app, concat_front_chunks. simpl.
  by rewrite app_nil_r, take_drop.
Qed.

Lemma divide_ports_complete_witness :
  ∃ chunks, divide_ports [21; 22; 80; 443; 8080] 2 = Returned chunks
            ∧ concat chunks = [21; 22; 80; 443; 8080]
            ∧ concat chunks ≡ₚ [21; 22; 80; 443; 8080].
Proof. apply divide_ports_complete; [done | lia]. Defined.

(** C1, as stated, fails on the empty port list: the call raises, so there
    are no returned chunks whose union could equal the list. *)
Lemma divide_ports_empty_no_chunks :
  ¬ ∃ chunks, divide_ports [] 1 = Returned chunks ∧ concat chunks ≡ₚ [].
Proof. intros (chunks & H & _). discriminate H. Qed.

(** C2: on a non-empty list and n >= 1 the count is clamped to the length,
    [size = len // n], and the call returns n chunks of exactly [size]
    contiguous ports in input order and then one trailing chunk of
    [len mod n] ports, n + 1 chunks in all; ports 1..5 with n = 5 give five
    singletons and an empty trailing chunk. *)
Theorem divide_ports_shape (ports : list Z) (n : Z) :
  ports ≠ [] → 1 ≤ n →
  let len := Z.of_nat (length ports) in
  let n' := if n >? len then len else n in
  let size := len / n' in
  (∃ chunks tail,
      divide_ports ports n = Returned (chunks ++ [tail])
      ∧ Z.of_nat (length chunks) = n'
      ∧ (∀ (i : nat) c, chunks !! i = Some c →
           Z.of_nat (length c) = size
           ∧ c = take (Z.to_nat size) (drop (i * Z.to_nat size) ports))
      ∧ tail = drop (Z.to_nat (n' * size)) ports
      ∧ Z.of_nat (length tail) = len `mod` n'
      ∧ Z.of_nat (length (chunks ++ [tail])) = n' + 1)
  ∧ divide_ports [1; 2; 3; 4; 5] 5 = Returned [[1]; [2]; [3]; [4]; [5]; []].
Proof.
  intros Hne Hn len n' size. split; [|reflexivity].
  assert (0 < length ports)%nat as Hlen by (destruct ports; [done | simpl; lia]).
  set (m := clamped ports n). set (sz := (length ports / m)%nat).
  assert (1 ≤ m ≤ length ports)%nat as Hm by (unfold m, clamped; lia).
  assert (n' = Z.of_nat m) as Hn'.
  { unfold n', len, m, clamped. case_match; lia. }
  assert (size = Z.of_nat sz) as Hsize.
  { unfold size, sz. rewrite Hn'. unfold len. by rewrite Nat2Z.inj_div. }
  assert (m * sz ≤ length ports)%nat as Hmsz.
  { unfold sz. pose proof (Nat.Div0.mul_div_le (length ports) m). lia. }
  eexists _, _. split; [by apply divide_ports_take_drop|].
  fold m sz. rewrite Hn', Hsize, Nat2Z.id.
  split; [by rewrite length_fmap, length_seq|].
  split.
  { intros i c Hc. rewrite list_lookup_fmap in Hc.
    destruct (seq 0 m !! i) as [j|] eqn:Hj; [|done].
    apply lookup_seq in Hj as [-> Hj]. simpl in Hc. injection Hc as <-.
    split; [|done].
    rewrite length_take, length_drop. nia. }
  split; [f_equal; lia|].
  split.
  { rewrite length_drop. unfold len.
    rewrite <- Nat2Z.inj_mod. f_equal.
    rewrite (Nat.Div0.mod_eq (length ports) m). fold sz. lia. }
  rewrite length_app, length_fmap, length_seq. simpl. lia.
Qed.

Lemma divide_ports_shape_witness :
  (∃ chunks tail,
      divide_ports [1; 2; 3; 4; 5; 6; 7] 3 = Returned (chunks ++ [tail])
      ∧ Z.of_nat (length chunks) = 3
      ∧ (∀ (i : nat) c, chunks !! i = Some c →
           Z.of_nat (length c) = 2
           ∧ c = take 2 (drop (i * 2) [1; 2; 3; 4; 5; 6; 7]))
      ∧ tail = drop 6 [1; 2; 3; 4; 5; 6; 7]
      ∧ Z.of_nat (length tail) = 1
      ∧ Z.of_nat (length (chunks ++ [tail])) = 3 + 1)
  ∧ divide_ports [1; 2; 3; 4; 5] 5 = Returned [[1]; [2]; [3]; [4]; [5]; []].
Proof. apply (divide_ports_shape [1; 2; 3; 4; 5; 6; 7] 3); [done | lia]. Defined.

(** C10: on the empty port list and any n >= 1 the clamp makes the chunk
    count 0 and [len(ports) // num_chunks] divides by zero: the call raises
    ZeroDivisionError instead of returning chunks. *)
Theorem divide_ports_empty_raises (n : Z) :
  1 ≤ n →
  (if n >? Z.of_nat (length (@nil Z)) then Z.of_nat (length (@nil Z)) else n) = 0
  ∧ divide_ports [] n = Raised zero_division
  ∧ exc_class zero_division = ZeroDivisionError.
Proof.
  intros Hn. change (Z.of_nat (length (@nil Z))) with 0.
  assert ((n >? 0) = true) as Hgt by lia.
  split; [by rewrite Hgt|]. split; [|done].
  unfold divide_ports. change (Z.of_nat (length (@nil Z))) with 0.
  by rewrite Hgt.
Qed.

Lemma divide_ports_empty_raises_witness :
  (if 4 >? Z.of_nat (length (@nil Z)) then Z.of_nat (length (@nil Z)) else 4) = 0
  ∧ divide_ports [] 4 = Raised zero_division
  ∧ exc_class zero_division = ZeroDivisionError.
Proof. apply (divide_ports_empty_raises 4). lia. Defined.

(** ** The worker pools *)

Section PoolFacts.
Context {T R A : Type}.
Variable run : T -> R.
Variable body : A -> T -> R -> A.
Variable workers : nat.
Variable tasks : list T.
Variable a0 : A.

Abbreviation step := (pool_step run body workers tasks).
Abbreviation exec := (pool_exec run body workers tasks).
Abbreviation inv := (pool_inv run body tasks a0).
Abbreviation measure := (pool_measure tasks).
Abbreviation over := (completed tasks).

Lemma pool_inv_init : inv (pool_init tasks a0).
Proof.
  split; simpl.
  - lia.
  - intros i r Hi. by rewrite lookup_empty in Hi.
  - lia.
  - done.
  - intros i Hi. left. apply elem_of_seq. lia.
  - intros i Hi%elem_of_seq. lia.
  - intros i Hi. by apply not_elem_of_nil in Hi.
Qed.

Lemma pool_inv_step s e s' : inv s → step s e = Some s' → inv s'.
Proof.
  intros [Hc Hf Hr Ha Hw Hq Hrun] Hstep.
  destruct e as [|i|]; simpl in Hstep.
  - destruct (queued s) as [|i q] eqn:Eq; [done|].
    case_decide; [|done]. injection Hstep as <-.
    split; simpl; try done.
    + intros j Hj. destruct (Hw j Hj) as [Hin|[Hin|Hin]].
      * apply elem_of_cons in Hin as [->|Hin]; [|by left].
        right; left. apply elem_of_app. right. by apply list_elem_of_singleton.
      * right; left. apply elem_of_app. by left.
      * by right; right.
    + intros j Hj. apply Hq. by apply elem_of_cons; right.
    + intros j [Hj|Hj%list_elem_of_singleton]%elem_of_app; [by apply Hrun|].
      subst j. apply Hq. by apply elem_of_cons; left.
  - case_decide as Hin; [|done].
    destruct (tasks !! i) as [t|] eqn:Et; [|done]. injection Hstep as <-.
    split; simpl; try done.
    + intros j r. rewrite lookup_insert. case_decide as Hij.
      * subst j. intros [= <-]. eauto.
      * apply Hf.
    + intros j Hj. rewrite lookup_insert_is_Some'. right. by apply Hr.
    + intros j Hj. destruct (decide (j = i)) as [->|Hne].
      * right; right. rewrite lookup_insert_is_Some'. by left.
      * destruct (Hw j Hj) as [Hq'|[Hr'|Hf']]; [by left| |].
        -- right; left. by apply list_elem_of_filter.
        -- right; right. rewrite lookup_insert_is_Some'. by right.
    + intros j [_ Hj]%list_elem_of_filter. by apply Hrun.
  - destruct (tasks !! cursor s) as [t|] eqn:Et; [|done].
    destruct (finished s !! cursor s) as [r|] eqn:Er; [|done].
    injection Hstep as <-.
    destruct (Hf _ _ Er) as (t' & Et' & ->).
    assert (t' = t) as -> by congruence.
    split; simpl; try done.
    + by apply lookup_lt_Some in Et.
    + intros j Hj. destruct (decide (j = cursor s)) as [->|]; [by eexists|].
      apply Hr. lia.
    + rewrite (take_S_r _ _ _ Et). unfold in_order.
      rewrite foldl_app. simpl. f_equal. exact Ha.
Qed.

Lemma pool_inv_exec sched : ∀ s s', inv s → exec sched s = Some s' → inv s'.
Proof.
  induction sched as [|e sched IH]; intros s s' Hs Hex; simpl in Hex.
  - by injection Hex as <-.
  - destruct (step s e) as [s1|] eqn:E1; [|done].
    eapply IH; [|exact Hex]. by eapply pool_inv_step.
Qed.

(** Once the loop is over, every call is resolved and the loop has seen the
    results in submission order. *)
Lemma pool_inv_completed s :
  inv s → over s = true →
  all_resolved tasks s ∧ acc s = in_order run body a0 tasks.
Proof.
  intros [Hc Hf Hr Ha Hw Hq Hrun] Hd.
  apply bool_decide_eq_true in Hd. split.
  - intros i Hi. apply Hr. lia.
  - rewrite Ha, Hd. by rewrite take_ge.
Qed.

Lemma pool_step_measure s e s' : step s e = Some s' → (measure s' < measure s)%nat.
Proof.
  intros Hstep. unfold pool_measure.
  destruct e as [|i|]; simpl in Hstep.
  - destruct (queued s) as [|i q] eqn:Eq; [done|].
    case_decide; [|done]. injection Hstep as <-. simpl.
    rewrite length_app. simpl. lia.
  - case_decide as Hin; [|done].
    destruct (tasks !! i) as [t|] eqn:Et; [|done]. injection Hstep as <-. simpl.
    assert (length (filter (fun j => j ≠ i) (running s)) < length (running s))%nat.
    { apply (length_filter_lt _ _ i); [done|]. by intros H. }
    lia.
  - destruct (tasks !! cursor s) as [t|] eqn:Et; [|done].
    destruct (finished s !! cursor s) as [r|] eqn:Er; [|done].
    injection Hstep as <-. simpl.
    apply lookup_lt_Some in Et. lia.
Qed.

Lemma pool_exec_measure sched :
  ∀ s s', exec sched s = Some s' → (length sched + measure s' ≤ measure s)%nat.
Proof.
  induction sched as [|e sched IH]; intros s s' Hex; simpl in Hex.
  - injection Hex as <-. simpl. lia.
  - destruct (step s e) as [s1|] eqn:E1; [|done].
    apply IH in Hex. apply pool_step_measure in E1. simpl. lia.
Qed.

(** No run from the start is longer than three steps per call. *)
Lemma pool_exec_bounded sched s :
  exec sched (pool_init tasks a0) = Some s → (length sched ≤ 3 * length tasks)%nat.
Proof.
  intros Hex%pool_exec_measure. unfold pool_measure in Hex. simpl in Hex.
  rewrite length_seq in Hex. lia.
Qed.

(** A pool with at least one worker is never stuck before the loop is over. *)
Lemma pool_progress s :
  (1 ≤ workers)%nat → inv s → over s = false → ∃ e s', step s e = Some s'.
Proof.
  intros Hw1 [Hc Hf Hr Ha Hw Hq Hrun] Hd.
  apply bool_decide_eq_false in Hd.
  assert (cursor s < length tasks)%nat as Hlt by lia.
  destruct (lookup_lt_is_Some_2 tasks _ Hlt) as [t Et].
  assert (∀ j, j ∈ running s → ∃ s', step s (Finish j) = Some s') as Hfin.
  { intros j Hj. simpl. rewrite decide_True by done.
    destruct (lookup_lt_is_Some_2 tasks j (Hrun j Hj)) as [tj ->]. eauto. }
  destruct (Hw _ Hlt) as [Hin|[Hin|[r Er]]].
  - destruct (decide (length (running s) < workers)%nat) as [Hfree|Hfull].
    + exists Start. simpl. destruct (queued s) as [|i q]; [by apply not_elem_of_nil in Hin|].
      rewrite decide_True by done. eauto.
    + destruct (running s) as [|j rs] eqn:Er; [simpl in Hfull; lia|].
      exists (Finish j). apply Hfin. by apply elem_of_cons; left.
  - exists (Finish (cursor s)). by apply Hfin.
  - exists Collect. simpl. rewrite Et, Er. eauto.
Qed.

Lemma pool_exec_app sched1 sched2 s :
  exec (sched1 ++ sched2) s = exec sched1 s ≫= exec sched2.
Proof.
  revert s. induction sched1 as [|e sched1 IH]; intros s; simpl; [done|].
  destruct (step s e); [apply IH | done].
Qed.

(** From every reachable state some schedule brings the loop to its end. *)
Lemma pool_can_finish_from (n : nat) :
  (1 ≤ workers)%nat →
  ∀ s, (measure s ≤ n)%nat → inv s → ∃ sched s', exec sched s = Some s' ∧ over s' = true.
Proof.
  intros Hw1. induction n as [|n IH]; intros s Hm Hs.
  - destruct (over s) eqn:Hd; [by exists [], s|].
    destruct (pool_progress s Hw1 Hs Hd) as (e & s' & Hstep).
    apply pool_step_measure in Hstep. lia.
  - destruct (over s) eqn:Hd; [by exists [], s|].
    destruct (pool_progress s Hw1 Hs Hd) as (e & s1 & Hstep).
    destruct (IH s1) as (sched & s' & Hex & Hd').
    { apply pool_step_measure in Hstep. lia. }
    { by eapply pool_inv_step. }
    exists (e :: sched), s'. simpl. by rewrite Hstep.
Qed.

(** Every run that ends the loop ends it with the in-order value. *)
Lemma pool_run_in_order sched a :
  pool_run run body workers tasks a0 sched = Some a → a = in_order run body a0 tasks.
Proof.
  unfold pool_run. intros Hrun.
  destruct (exec sched (pool_init tasks a0)) as [s|] eqn:Hex; [|done].
  destruct (over s) eqn:Hd; [|done]. injection Hrun as <-.
  eapply pool_inv_completed; [|done].
  eapply pool_inv_exec; [apply pool_inv_init | done].
Qed.

(** With at least one worker there is a run that ends the loop. *)
Lemma pool_run_exists :
  (1 ≤ workers)%nat → ∃ sched, pool_run run body workers tasks a0 sched
                               = Some (in_order run body a0 tasks).
Proof.
  intros Hw1.
  destruct (pool_can_finish_from _ Hw1 (pool_init tasks a0) (le_n _) pool_inv_init)
    as (sched & s & Hex & Hd).
  exists sched. unfold pool_run. rewrite Hex, Hd. f_equal.
  eapply pool_inv_completed; [|done].
  eapply pool_inv_exec; [apply pool_inv_init | done].
Qed.
End PoolFacts.

(** ** scan_port *)

Example scan_port_open :
  scan_port mixed_world (mkPortScanner 1) "10.0.0.1" 80 = Returned (true, None).
Proof. reflexivity. Qed.

Example scan_port_refused :
  scan_port mixed_world (mkPortScanner 1) "10.0.0.1" 22 = Returned (false, None).
Proof. reflexivity. Qed.

Example scan_port_timeout :
  scan_port mixed_world (mkPortScanner 1) "10.0.0.1" 83 = Returned (false, None).
Proof. reflexivity. Qed.

Example scan_port_unreachable :
  scan_port mixed_world (mkPortScanner 1) "10.0.0.1" 82
  = Returned (false, Some "[Errno 101] Network is unreachable"%string).
Proof. reflexivity. Qed.

Example scan_port_no_socket :
  scan_port mixed_world (mkPortScanner 1) "10.0.0.1" 81 = Raised too_many_files.
Proof. reflexivity. Qed.

(** The four shapes of what [scan_port] can give. *)
Lemma scan_port_cases w self ip port :
  (∃ e, scan_port w self ip port = Raised e)
  ∨ scan_port w self ip port = Returned (true, None)
  ∨ scan_port w self ip port = Returned (false, None)
  ∨ (∃ msg, scan_port w self ip port = Returned (false, Some msg)).
Proof.
  unfold scan_port.
  destruct (socket_create w ip port); [eauto|].
  destruct (timeout self <? 0); [eauto|].
  destruct (timeout_limit <=? timeout self); [eauto|].
  destruct (connect w ip port) as [e|]; [|eauto].
  destruct (exc_class e); eauto.
Qed.

(** C3, as amended: with a positive timeout that [settimeout] accepts, one
    below 9223372037 seconds, and the socket created, a probe returns exactly
    one of three tagged outcomes: Open, (True, None), when the connect
    succeeds; Closed, (False, None), when the connection is refused or the
    timeout expires, the two alike; Errored, (False, str(e)), on any other
    fault of the connect.  A fault in creating the socket reaches the caller
    as an exception. *)
Theorem scan_port_classifies w self ip port :
  0 < timeout self < timeout_limit →
  (socket_create w ip port = None →
     (∃ p o, scan_port w self ip port = Returned p ∧ outcome_of p = Some o)
     ∧ (connect w ip port = None → scan_port w self ip port = Returned (true, None))
     ∧ (∀ e, connect w ip port = Some e →
          exc_class e = ConnectionRefusedError ∨ exc_class e = socket_timeout →
          scan_port w self ip port = Returned (false, None))
     ∧ (∀ e, connect w ip port = Some e →
          exc_class e ≠ ConnectionRefusedError → exc_class e ≠ socket_timeout →
          scan_port w self ip port = Returned (false, Some (exc_str e))))
  ∧ (∀ e, socket_create w ip port = Some e → scan_port w self ip port = Raised e).
Proof.
  intros Ht. unfold scan_port.
  assert ((timeout self <? 0) = false) as -> by lia.
  assert ((timeout_limit <=? timeout self) = false) as -> by lia.
  split.
  - intros ->. repeat split.
    + destruct (connect w ip port) as [e|]; [|by eexists _, Open].
      destruct (exc_class e);
        first [by eexists _, Closed | by eexists _, (Errored _)].
    + by intros ->.
    + intros e -> [-> | ->]; done.
    + intros e -> H1 H2. by destruct (exc_class e).
  - by intros e ->.
Qed.

Lemma scan_port_classifies_witness :
  (socket_create mixed_world "10.0.0.1" 82 = None →
     (∃ p o, scan_port mixed_world (mkPortScanner 1) "10.0.0.1" 82 = Returned p
             ∧ outcome_of p = Some o)
     ∧ (connect mixed_world "10.0.0.1" 82 = None →
        scan_port mixed_world (mkPortScanner 1) "10.0.0.1" 82 = Returned (true, None))
     ∧ (∀ e, connect mixed_world "10.0.0.1" 82 = Some e →
          exc_class e = ConnectionRefusedError ∨ exc_class e = socket_timeout →
          scan_port mixed_world (mkPortScanner 1) "10.0.0.1" 82 = Returned (false, None))
     ∧ (∀ e, connect mixed_world "10.0.0.1" 82 = Some e →
          exc_class e ≠ ConnectionRefusedError → exc_class e ≠ socket_timeout →
          scan_port mixed_world (mkPortScanner 1) "10.0.0.1" 82
          = Returned (false, Some (exc_str e))))
  ∧ (∀ e, socket_create mixed_world "10.0.0.1" 82 = Some e →
       scan_port mixed_world (mkPortScanner 1) "10.0.0.1" 82 = Raised e).
Proof.
  apply (scan_port_classifies mixed_world (mkPortScanner 1)).
  unfold timeout_limit. simpl. lia.
Defined.

(** C3, as stated, fails where the socket cannot be created: the probe of
    port 80 with timeout 1 returns no outcome at all, it raises to its
    caller. *)
Lemma scan_port_raises_without_socket :
  0 < timeout (mkPortScanner 1)
  ∧ scan_port exhausted_world (mkPortScanner 1) "10.0.0.1" 80 = Raised too_many_files
  ∧ ¬ ∃ p, scan_port exhausted_world (mkPortScanner 1) "10.0.0.1" 80 = Returned p.
Proof. split; [simpl; lia|]. split; [reflexivity|]. by intros [p H]. Qed.

(** ** scan_ports *)

Example scan_ports_mixed :
  scan_ports mixed_world (mkPortScanner 1) "10.0.0.1" [80; 81; 82; 83; 84; 80] 100
  = Returned ([80; 80],
              [(81, "[Errno 24] Too many open files"%string);
               (82, "[Errno 101] Network is unreachable"%string)]).
Proof. reflexivity. Qed.

Example scan_ports_no_workers :
  scan_ports mixed_world (mkPortScanner 1) "10.0.0.1" [80] 0 = Raised bad_max_workers.
Proof. reflexivity. Qed.

(** The loop body only appends: what it adds does not depend on what the two
    lists already hold. *)
Lemma scan_ports_collect_append (o0 : list Z) (e0 : list (Z * string)) port r :
  scan_ports_collect (o0, e0) port r
  = (o0 ++ (scan_ports_collect ([], []) port r).1,
     e0 ++ (scan_ports_collect ([], []) port r).2).
Proof.
  destruct r as [[[] [msg|]]|e]; simpl; rewrite ?app_nil_r; try done.
  all: by destruct (String.eqb msg ""); simpl; rewrite ?app_nil_r.
Qed.

Lemma batch_loop_append w self ip ports (o0 : list Z) (e0 : list (Z * string)) :
  batch_loop w self ip (o0, e0) ports
  = (o0 ++ (batch_loop w self ip ([], []) ports).1,
     e0 ++ (batch_loop w self ip ([], []) ports).2).
Proof.
  induction ports as [|port ports IH] using rev_ind; simpl.
  - by rewrite !app_nil_r.
  - rewrite !foldl_app. simpl. rewrite IH.
    destruct (batch_loop w self ip ([], []) ports) as [o e]. simpl.
    destruct (scan_port w self ip port) as [[[] [msg|]]|ex]; simpl;
      rewrite ?app_assoc; try done.
    all: by destruct (String.eqb msg ""); simpl; rewrite ?app_assoc.
Qed.

Lemma batch_loop_app w self ip l1 l2 :
  batch_loop w self ip ([], []) (l1 ++ l2)
  = ((batch_loop w self ip ([], []) l1).1 ++ (batch_loop w self ip ([], []) l2).1,
     (batch_loop w self ip ([], []) l1).2 ++ (batch_loop w self ip ([], []) l2).2).
Proof.
  rewrite foldl_app.
  destruct (batch_loop w self ip ([], []) l1) as [o1 e1] eqn:E1.
  by rewrite batch_loop_append.
Qed.

(** What one probe adds to a batch: exactly one of an open port, an error
    entry, or nothing. *)
Lemma scan_ports_collect_probe w self ip port :
  let r := scan_port w self ip port in
  (r = Returned (true, None) ∧ scan_ports_collect ([], []) port r = ([port], []))
  ∨ (is_closed r || is_blank_error r = true
     ∧ scan_ports_collect ([], []) port r = ([], []))
  ∨ (is_closed r = false ∧ is_blank_error r = false
     ∧ ∃ msg, scan_ports_collect ([], []) port r = ([], [(port, msg)])).
Proof.
  intros r. unfold r.
  destruct (scan_port_cases w self ip port) as [[e ->]|[->|[->|[msg ->]]]]; simpl.
  - right; right. eauto.
  - by left.
  - by right; left.
  - destruct (String.eqb msg ""); simpl; [by right; left|]. right; right. eauto.
Qed.

Lemma count_probes_cons f w self ip port ports :
  count_probes f w self ip (port :: ports)
  = ((if f (scan_port w self ip port) then 1 else 0)
     + count_probes f w self ip ports)%nat.
Proof.
  unfold count_probes. rewrite filter_cons.
  destruct (f (scan_port w self ip port)); by case_decide.
Qed.

(** Every probe is accounted for once. *)
Lemma batch_loop_counts w self ip ports :
  (length (batch_loop w self ip ([], []) ports).1
   + length (batch_loop w self ip ([], []) ports).2
   + count_probes is_closed w self ip ports
   + count_probes is_blank_error w self ip ports
   = length ports)%nat.
Proof.
  induction ports as [|port ports IH]; [done|].
  rewrite !count_probes_cons.
  change (port :: ports) with ([port] ++ ports) at 1 2.
  rewrite (batch_loop_app w self ip [port] ports).
  change (batch_loop w self ip ([], []) [port])
    with (scan_ports_collect ([], []) port (scan_port w self ip port)).
  cbn [fst snd]. rewrite !length_app. cbn [length] in IH |- *.
  destruct (scan_ports_collect_probe w self ip port)
    as [[Hr ->]|[[Hc ->]|(Hc & Hb & msg & ->)]]; simpl.
  - rewrite Hr. simpl. lia.
  - destruct (is_closed _) eqn:Ec, (is_blank_error _) eqn:Eb; simpl in *; try lia.
    destruct (scan_port w self ip port) as [[[] []]|]; done.
  - rewrite Hc, Hb. lia.
Qed.

(** X20: the batch on its thread pool: for every host, port sequence of length k
    and concurrency bound c >= 1, the pool never gets stuck and every run of
    it ends within 3k steps; a run ends the loop only with all k probes
    resolved, never earlier, and then with the batch of [scan_ports]; and
    every probe is counted once, as an open port, as an error entry, or as
    dropped, the dropped ones being the Closed outcomes and the Errored ones
    whose cause string is empty. *)
Theorem scan_ports_batch_complete w self ip (ports : list Z) (c : Z) :
  1 ≤ c →
  (∀ sched s,
      pool_exec (scan_port w self ip) scan_ports_collect (Z.to_nat c) ports sched
                (pool_init ports ([], [])) = Some s →
      (length sched ≤ 3 * length ports)%nat
      ∧ (completed ports s = true → all_resolved ports s)
      ∧ (completed ports s = false →
         ∃ e s', pool_step (scan_port w self ip) scan_ports_collect (Z.to_nat c)
                           ports s e = Some s'))
  ∧ (∃ sched, scan_ports_pool w self ip ports c sched
              = Some (scan_ports w self ip ports c))
  ∧ (∀ sched r, scan_ports_pool w self ip ports c sched = Some r →
                r = scan_ports w self ip ports c)
  ∧ (∃ open_ports errors,
        scan_ports w self ip ports c = Returned (open_ports, errors)
        ∧ (length open_ports + length errors
           + count_probes is_closed w self ip ports
           + count_probes is_blank_error w self ip ports
           = length ports)%nat).
Proof.
  intros Hc.
  assert ((c <=? 0) = false) as Hc0 by lia.
  assert (1 ≤ Z.to_nat c)%nat as Hw by lia.
  repeat split.
  - by eapply pool_exec_bounded.
  - intros Hd. eapply pool_inv_completed; [|done].
    eapply pool_inv_exec; [apply pool_inv_init | done].
  - intros Hd. eapply pool_progress; [done| |done].
    eapply pool_inv_exec; [apply pool_inv_init | done].
  - destruct (pool_run_exists (scan_port w self ip) scan_ports_collect
                (Z.to_nat c) ports ([], []) Hw) as [sched Hs].
    exists sched. unfold scan_ports_pool, scan_ports. rewrite Hc0, Hs. done.
  - intros sched r. unfold scan_ports_pool, scan_ports. rewrite Hc0.
    destruct (pool_run _ _ _ _ _ sched) as [a|] eqn:Hrun; [|done].
    intros [= <-]. f_equal. by apply pool_run_in_order in Hrun.
  - unfold scan_ports. rewrite Hc0.
    destruct (batch_loop w self ip ([], []) ports) as [o e] eqn:E.
    exists o, e. split; [done|].
    pose proof (batch_loop_counts w self ip ports) as H. by rewrite E in H.
Qed.

Lemma scan_ports_batch_complete_witness :
  1 ≤ 100
  ∧ ∃ open_ports errors,
      scan_ports mixed_world (mkPortScanner 1) "10.0.0.1" [80; 81; 82; 83; 84] 100
      = Returned (open_ports, errors)
      ∧ (length open_ports + length errors
         + count_probes is_closed mixed_world (mkPortScanner 1) "10.0.0.1"
                        [80; 81; 82; 83; 84]%Z
         + count_probes is_blank_error mixed_world (mkPortScanner 1) "10.0.0.1"
                        [80; 81; 82; 83; 84]%Z
         = length [80; 81; 82; 83; 84]%Z)%nat.
Proof.
  split; [lia|].
  pose proof (scan_ports_batch_complete mixed_world (mkPortScanner 1) "10.0.0.1"
                [80; 81; 82; 83; 84] 100 ltac:(lia)) as (_ & _ & _ & H).
  exact H.
Defined.

(** C4: the count fails on a probe whose connect raises an exception with
    an empty message.  The probe returns the Errored outcome (False, ''), the
    test [if error:] takes the empty string for no error and records nothing,
    and the outcome is no Closed one: for a batch of one port the open ports,
    the error entries and the dropped Closed outcomes add up to 0, not 1.  The
    except branch of the same loop records its entry whatever the message. *)
Lemma scan_ports_blank_error_unaccounted :
  scan_port blank_fault_world (mkPortScanner 1) "10.0.0.1" 80
  = Returned (false, Some ""%string)
  ∧ scan_ports blank_fault_world (mkPortScanner 1) "10.0.0.1" [80] 100
    = Returned ([], [])
  ∧ count_probes is_closed blank_fault_world (mkPortScanner 1) "10.0.0.1" [80] = 0%nat
  ∧ (¬ ∃ open_ports errors,
        scan_ports blank_fault_world (mkPortScanner 1) "10.0.0.1" [80] 100
        = Returned (open_ports, errors)
        ∧ (length open_ports + length errors
           + count_probes is_closed blank_fault_world (mkPortScanner 1) "10.0.0.1" [80]%Z
           = length [80]%Z)%nat)
  ∧ scan_ports_collect ([], []) 80 (Raised out_of_memory) = ([], [(80, ""%string)]).
Proof.
  repeat split; try reflexivity.
  intros (o & e & H & Hsum). vm_compute in H. injection H as <- <-.
  vm_compute in Hsum. discriminate Hsum.
Qed.

(** C5: a fault raised while the result of one probe is retrieved is caught
    and recorded as the entry (port, message) of that port; the batch is not
    aborted, and the open ports and error entries of the ports before and
    after it are all kept, in place. *)
Theorem scan_ports_isolates_fault w self ip (pre : list Z) port (post : list Z) c e :
  1 ≤ c →
  scan_port w self ip port = Raised e →
  (∀ open_ports errors,
      scan_ports_collect (open_ports, errors) port (scan_port w self ip port)
      = (open_ports, errors ++ [(port, exc_str e)]))
  ∧ ∃ o1 e1 o2 e2,
      scan_ports w self ip pre c = Returned (o1, e1)
      ∧ scan_ports w self ip post c = Returned (o2, e2)
      ∧ scan_ports w self ip (pre ++ port :: post) c
        = Returned (o1 ++ o2, e1 ++ (port, exc_str e) :: e2).
Proof.
  intros Hc Hr.
  assert ((c <=? 0) = false) as Hc0 by lia.
  split; [by rewrite Hr|].
  unfold scan_ports. rewrite Hc0.
  destruct (batch_loop w self ip ([], []) pre) as [o1 e1] eqn:E1.
  destruct (batch_loop w self ip ([], []) post) as [o2 e2] eqn:E2.
  exists o1, e1, o2, e2. repeat split. f_equal.
  rewrite batch_loop_app, E1.
  change (port :: post) with ([port] ++ post).
  rewrite batch_loop_app, E2.
  change (batch_loop w self ip ([], []) [port])
    with (scan_ports_collect ([], []) port (scan_port w self ip port)).
  by rewrite Hr.
Qed.

Lemma scan_ports_isolates_fault_witness :
  (∀ open_ports errors,
      scan_ports_collect (open_ports, errors) 81
                         (scan_port mixed_world (mkPortScanner 1) "10.0.0.1" 81)
      = (open_ports, errors ++ [(81, exc_str too_many_files)]))
  ∧ ∃ o1 e1 o2 e2,
      scan_ports mixed_world (mkPortScanner 1) "10.0.0.1" [80] 100 = Returned (o1, e1)
      ∧ scan_ports mixed_world (mkPortScanner 1) "10.0.0.1" [82; 80] 100
        = Returned (o2, e2)
      ∧ scan_ports mixed_world (mkPortScanner 1) "10.0.0.1" ([80] ++ 81 :: [82; 80]) 100
        = Returned (o1 ++ o2, e1 ++ (81, exc_str too_many_files) :: e2).
Proof.
  apply (scan_ports_isolates_fault mixed_world (mkPortScanner 1) "10.0.0.1"
           [80] 81 [82; 80] 100 too_many_files); [lia | reflexivity].
Defined.

Lemma foldl_invariant {A B} (P : A → Prop) (f : A → B → A) (l : list B) (a : A) :
  P a → (∀ a b, b ∈ l → P a → P (f a b)) → P (foldl f a l).
Proof.
  revert a. induction l as [|b l IH]; intros a Ha Hstep; simpl; [done|].
  apply IH.
  - apply Hstep; [by apply elem_of_cons; left | done].
  - intros a' b' Hb'. apply Hstep. by apply elem_of_cons; right.
Qed.

(** An open port of a batch is a port of the batch whose probe returned
    Open. *)
Lemma scan_ports_open_sound w self ip (ports : list Z) c open_ports errors port :
  scan_ports w self ip ports c = Returned (open_ports, errors) →
  port ∈ open_ports →
  port ∈ ports ∧ scan_port w self ip port = Returned (true, None).
Proof.
  unfold scan_ports. destruct (c <=? 0); [done|]. intros [= H].
  revert port. change open_ports with (open_ports, errors).1. rewrite <- H.
  apply (foldl_invariant
           (fun acc : batch => ∀ port, port ∈ acc.1 →
              port ∈ ports ∧ scan_port w self ip port = Returned (true, None))).
  - intros port Hin. by apply not_elem_of_nil in Hin.
  - intros [o e] p Hp IH port. rewrite scan_ports_collect_append. cbn [fst snd].
    intros [Hin|Hin]%elem_of_app; [by apply IH|].
    destruct (scan_ports_collect_probe w self ip p)
      as [[Hr Hc]|[[_ Hc]|(_ & _ & msg & Hc)]]; rewrite Hc in Hin; simpl in Hin.
    + apply list_elem_of_singleton in Hin as ->. done.
    + by apply not_elem_of_nil in Hin.
    + by apply not_elem_of_nil in Hin.
Qed.

(** ** scan_network *)

Example scan_network_loopback :
  scan_network loopback_world (NetworkScanner_init "127.0.0.1/32" [1; 2; 3] 4 100)
               [[1]; [2]; [3]; []]
  = Returned ({["127.0.0.1"%string := [2]]}, ∅).
Proof. vm_compute. reflexivity. Qed.

Lemma gather_app w self l1 l2 acc :
  gather w self (l1 ++ l2) acc = gather w self l2 (gather w self l1 acc).
Proof. unfold gather. by rewrite foldl_app. Qed.

Lemma gather_cons w self u l acc :
  gather w self (u :: l) acc
  = gather w self l (scan_network_collect acc u (unit_result w self u)).
Proof. done. Qed.


(** A unit that came back with two empty lists leaves them as they are too. *)
Lemma scan_network_collect_empty acc u :
  scan_network_collect acc u (Returned ([], [])) = acc.
Proof. by destruct acc. Qed.



Lemma elem_of_scan_units hosts port_ranges ip chunk :
  (ip, chunk) ∈ scan_units hosts port_ranges ↔ ip ∈ hosts ∧ chunk ∈ port_ranges.
Proof.
  unfold scan_units. rewrite list_elem_of_bind. split.
  - intros (h & (pr & Hin & Hpr)%list_elem_of_bind & Hh).
    apply list_elem_of_singleton in Hin. by injection Hin as -> ->.
  - intros [Hh Hpr]. exists ip. split; [|done].
    apply list_elem_of_bind. exists chunk. split; [|done].
    by apply list_elem_of_singleton.
Qed.

Example scan_network_mixed :
  scan_network mixed_world (NetworkScanner_init "10.0.0.0/30" [80; 81; 82; 83] 2 100)
               [[80; 81]; [82; 83]; []]
  = Returned
      ({["10.0.0.1"%string := [80]]},
       {["10.0.0.1"%string := [(81, "[Errno 24] Too many open files"%string);
                               (82, "[Errno 101] Network is unreachable"%string)];
         "10.0.0.2"%string := [(82, "[Errno 101] Network is unreachable"%string)]]}).
Proof. vm_compute. reflexivity. Qed.

(** The unit lost with its worker process is the one dropped. *)
Example unit_result_lost :
  unit_result mixed_world (NetworkScanner_init "10.0.0.0/30" [80; 81; 82; 83] 2 100)
              ("10.0.0.2"%string, [80; 81])
  = Raised broken_pool.
Proof. reflexivity. Qed.

(** With no thread allowed every unit fails, and the scan still returns. *)
Example scan_network_no_threads :
  scan_network mixed_world (NetworkScanner_init "10.0.0.0/30" [80; 81] 2 0) [[80]; [81]]
  = Returned (∅, ∅).
Proof. vm_compute. reflexivity. Qed.

(** The process pool never reads the number of processes into a unit's
    result. *)
Lemma unit_result_processes w ir ps n1 n2 mw pscan u :
  unit_result w (mkNetworkScanner ir ps n1 mw pscan) u
  = unit_result w (mkNetworkScanner ir ps n2 mw pscan) u.
Proof. done. Qed.

Lemma scan_network_pool_sound w self port_ranges sched r :
  scan_network_pool w self port_ranges sched = Some r →
  r = scan_network w self port_ranges.
Proof.
  unfold scan_network_pool, scan_network.
  destruct (network_hosts w (ip_range self)) as [hosts|e]; [|by intros [= <-]].
  destruct (num_processes self <=? 0); [by intros [= <-]|].
  destruct (process_limit <=? num_processes self); [by intros [= <-]|].
  destruct (pool_run _ _ _ _ _ sched) as [a|] eqn:Hrun; [|done].
  intros [= <-]. f_equal. by apply pool_run_in_order in Hrun.
Qed.

Lemma scan_network_pool_exists w self port_ranges :
  1 ≤ num_processes self →
  ∃ sched, scan_network_pool w self port_ranges sched
           = Some (scan_network w self port_ranges).
Proof.
  intros Hn. unfold scan_network_pool, scan_network.
  destruct (network_hosts w (ip_range self)) as [hosts|e]; [|by exists []].
  assert ((num_processes self <=? 0) = false) as -> by lia.
  destruct (process_limit <=? num_processes self); [by exists []|].
  destruct (pool_run_exists (unit_result w self) scan_network_collect
              (Z.to_nat (num_processes self)) (scan_units hosts port_ranges)
              (∅, ∅)) as [sched Hs]; [lia|].
  exists sched. by rewrite Hs.
Qed.

Lemma scan_network_processes w ir ps n1 n2 mw pscan port_ranges :
  1 ≤ n1 < process_limit → 1 ≤ n2 < process_limit →
  scan_network w (mkNetworkScanner ir ps n1 mw pscan) port_ranges
  = scan_network w (mkNetworkScanner ir ps n2 mw pscan) port_ranges.
Proof.
  intros H1 H2. unfold scan_network. simpl.
  destruct (network_hosts w ir); [|done].
  assert ((n1 <=? 0) = false) as -> by lia.
  assert ((n2 <=? 0) = false) as -> by lia.
  assert ((process_limit <=? n1) = false) as -> by lia.
  assert ((process_limit <=? n2) = false) as -> by lia.
  done.
Qed.

(** C7: over the same hosts and port chunks, in the same world, the scan on
    a process pool of 1 and the scan on a process pool of 8 both run to the
    end under some schedule, and whatever the two schedules are, the two
    results are the same: for every host the open ports and the (port, error)
    pairs are equal, whatever the order in which the units completed. *)
Theorem scan_network_same_for_1_and_8 w ir ps mw pscan port_ranges :
  (∃ sched1, scan_network_pool w (mkNetworkScanner ir ps 1 mw pscan) port_ranges sched1
             = Some (scan_network w (mkNetworkScanner ir ps 1 mw pscan) port_ranges))
  ∧ (∃ sched8, scan_network_pool w (mkNetworkScanner ir ps 8 mw pscan) port_ranges sched8
               = Some (scan_network w (mkNetworkScanner ir ps 8 mw pscan) port_ranges))
  ∧ (∀ sched1 sched8 r1 r8,
        scan_network_pool w (mkNetworkScanner ir ps 1 mw pscan) port_ranges sched1
        = Some r1 →
        scan_network_pool w (mkNetworkScanner ir ps 8 mw pscan) port_ranges sched8
        = Some r8 →
        r1 = r8
        ∧ ∀ od1 ed1 od8 ed8,
            r1 = Returned (od1, ed1) → r8 = Returned (od8, ed8) →
            ∀ ip : string, od1 !! ip = od8 !! ip ∧ ed1 !! ip = ed8 !! ip).
Proof.
  split; [by apply scan_network_pool_exists|].
  split; [by apply scan_network_pool_exists|].
  intros sched1 sched8 r1 r8 H1%scan_network_pool_sound H8%scan_network_pool_sound.
  assert (r1 = r8) as Heq.
  { rewrite H1, H8. apply scan_network_processes; unfold process_limit; lia. }
  split; [done|].
  intros od1 ed1 od8 ed8 -> Hr8 ip. rewrite <- Heq in Hr8.
  by injection Hr8 as -> ->.
Qed.

(** Four units on eight processes, completing out of order. *)
Example scan_network_pool_out_of_order :
  scan_network_pool mixed_world
    (mkNetworkScanner "10.0.0.0/30" [80; 81; 82; 83] 8 100 (mkPortScanner 1))
    [[80; 81]; [82; 83]]
    [Start; Start; Start; Start; Finish 3; Finish 1; Finish 0; Collect; Collect;
     Finish 2; Collect; Collect]
  = Some (scan_network mixed_world
            (mkNetworkScanner "10.0.0.0/30" [80; 81; 82; 83] 8 100 (mkPortScanner 1))
            [[80; 81]; [82; 83]]).
Proof. vm_compute. reflexivity. Qed.

(** One process runs the units one after the other. *)
Example scan_network_pool_one_process :
  scan_network_pool mixed_world
    (mkNetworkScanner "10.0.0.0/30" [80; 81; 82; 83] 1 100 (mkPortScanner 1))
    [[80; 81]; [82; 83]] (sequential 4)
  = Some (scan_network mixed_world
            (mkNetworkScanner "10.0.0.0/30" [80; 81; 82; 83] 1 100 (mkPortScanner 1))
            [[80; 81]; [82; 83]]).
Proof. vm_compute. reflexivity. Qed.

(** One process cannot have two units in flight, and the loop cannot read a
    future that is not resolved. *)
Example scan_network_pool_not_a_run :
  scan_network_pool mixed_world
    (mkNetworkScanner "10.0.0.0/30" [80; 81; 82; 83] 1 100 (mkPortScanner 1))
    [[80; 81]; [82; 83]] [Start; Start] = None
  ∧ scan_network_pool mixed_world
      (mkNetworkScanner "10.0.0.0/30" [80; 81; 82; 83] 8 100 (mkPortScanner 1))
      [[80; 81]; [82; 83]] [Start; Start; Finish 1; Collect] = None.
Proof. split; vm_compute; reflexivity. Qed.

Lemma scan_network_same_for_1_and_8_witness :
  scan_network mixed_world
    (mkNetworkScanner "10.0.0.0/30" [80; 81; 82; 83] 1 100 (mkPortScanner 1))
    [[80; 81]; [82; 83]]
  = scan_network mixed_world
      (mkNetworkScanner "10.0.0.0/30" [80; 81; 82; 83] 8 100 (mkPortScanner 1))
      [[80; 81]; [82; 83]].
Proof.
  pose proof (scan_network_same_for_1_and_8 mixed_world "10.0.0.0/30"
                [80; 81; 82; 83] 100 (mkPortScanner 1) [[80; 81]; [82; 83]])
    as (_ & _ & H).
  apply (H (sequential 4)
           [Start; Start; Start; Start; Finish 3; Finish 1; Finish 0; Collect;
            Collect; Finish 2; Collect; Collect]).
  - vm_compute. reflexivity.
  - vm_compute. reflexivity.
Defined.

(** What one probe does to the two lists of its batch: it adds its port to
    the open ports, and then it returned Open and adds no error entry; or it
    leaves the open ports alone, and adds at most one error entry. *)
Lemma scan_ports_collect_exclusive w self ip port
    (open_ports : list Z) (errors : list (Z * string)) :
  let r := scan_port w self ip port in
  (r = Returned (true, None)
   ∧ scan_ports_collect (open_ports, errors) port r = (open_ports ++ [port], errors))
  ∨ (r ≠ Returned (true, None)
     ∧ (scan_ports_collect (open_ports, errors) port r = (open_ports, errors)
        ∨ ∃ msg, scan_ports_collect (open_ports, errors) port r
                 = (open_ports, errors ++ [(port, msg)]))).
Proof.
  intros r. subst r. rewrite scan_ports_collect_append.
  destruct (scan_ports_collect_probe w self ip port)
    as [[Hr Hc]|[[Hd Hc]|(Hcl & Hb & msg & Hc)]].
  - left. split; [done|]. rewrite Hc. simpl. by rewrite app_nil_r.
  - right. split.
    + intros Hr. rewrite Hr in Hd. done.
    + left. rewrite Hc. simpl. by rewrite !app_nil_r.
  - right. split.
    + intros Hr. rewrite Hr in Hc. done.
    + right. exists msg. rewrite Hc. simpl. by rewrite app_nil_r.
Qed.

(** What [gather] puts under a host comes from the units of that host. *)
Lemma gather_open_sound w self units :
  ∀ ip ps port,
    (gather w self units (∅, ∅)).1 !! ip = Some ps → port ∈ ps →
    ∃ chunk, (ip, chunk) ∈ units ∧ port ∈ chunk
             ∧ scan_port w (port_scanner self) ip port = Returned (true, None).
Proof.
  unfold gather.
  apply (foldl_invariant
           (fun acc : dicts => ∀ ip ps port,
              acc.1 !! ip = Some ps → port ∈ ps →
              ∃ chunk, (ip, chunk) ∈ units ∧ port ∈ chunk
                       ∧ scan_port w (port_scanner self) ip port
                         = Returned (true, None))).
  - intros ip ps port Hl. cbn [fst] in Hl. by rewrite lookup_empty in Hl.
  - intros [od ed] [h chunk] Hu IH ip ps port. simpl.
    destruct (unit_result w self (h, chunk)) as [[o e]|ex] eqn:Er; simpl; [|apply IH].
    destruct o as [|p o]; [apply IH|].
    unfold dict_extend. rewrite lookup_insert. case_decide as Hip; [|apply IH].
    subst h. intros [= <-] [Hin|Hin]%elem_of_app.
    + destruct (od !! ip) as [old|] eqn:Eo; simpl in Hin.
      * by eapply IH.
      * by apply not_elem_of_nil in Hin.
    + unfold unit_result, _scan_ip in Er. simpl in Er.
      destruct (worker_fault w ip chunk); [done|].
      destruct (scan_ports_open_sound _ _ _ _ _ _ _ _ Er Hin) as [Hc Hs].
      by exists chunk.
Qed.

(** C8: in the dictionaries a scan returns, every open port listed under a
    host is a port of a chunk scanned for that host whose probe, for exactly
    that host and port, returned Open; and no probe adds both an open-port
    entry and an error entry: if it adds its port to the open ports it
    returned Open and adds no error, and otherwise it adds at most an
    error. *)
Theorem open_ports_confirmed w self port_ranges open_ports_dict errors_dict :
  scan_network w self port_ranges = Returned (open_ports_dict, errors_dict) →
  (∀ ip ps port,
      open_ports_dict !! ip = Some ps → port ∈ ps →
      ∃ hosts chunk,
        network_hosts w (ip_range self) = Returned hosts
        ∧ ip ∈ hosts ∧ chunk ∈ port_ranges ∧ port ∈ chunk
        ∧ scan_port w (port_scanner self) ip port = Returned (true, None))
  ∧ (∀ ip port (open_ports : list Z) (errors : list (Z * string)),
        let r := scan_port w (port_scanner self) ip port in
        (r = Returned (true, None)
         ∧ scan_ports_collect (open_ports, errors) port r
           = (open_ports ++ [port], errors))
        ∨ (r ≠ Returned (true, None)
           ∧ (scan_ports_collect (open_ports, errors) port r = (open_ports, errors)
              ∨ ∃ msg, scan_ports_collect (open_ports, errors) port r
                       = (open_ports, errors ++ [(port, msg)])))).
Proof.
  intros Hscan. split; [|intros; apply scan_ports_collect_exclusive].
  unfold scan_network in Hscan.
  destruct (network_hosts w (ip_range self)) as [hosts|e] eqn:Eh; [|done].
  destruct (num_processes self <=? 0); [done|].
  destruct (process_limit <=? num_processes self); [done|]. injection Hscan as Hg.
  intros ip ps port Hl Hin.
  destruct (gather_open_sound w self (scan_units hosts port_ranges) ip ps port)
    as (chunk & [Hh Hc]%elem_of_scan_units & Hp & Hs); [by rewrite Hg | done |].
  by exists hosts, chunk.
Qed.

Lemma open_ports_confirmed_witness :
  ∃ hosts chunk,
    network_hosts loopback_world "127.0.0.1/32" = Returned hosts
    ∧ "127.0.0.1"%string ∈ hosts ∧ chunk ∈ [[1]; [2]; [3]; []] ∧ 2 ∈ chunk
    ∧ scan_port loopback_world (mkPortScanner 1) "127.0.0.1" 2 = Returned (true, None).
Proof.
  pose proof (open_ports_confirmed loopback_world
                (NetworkScanner_init "127.0.0.1/32" [1; 2; 3] 4 100)
                [[1]; [2]; [3]; []] {["127.0.0.1"%string := [2]]} ∅) as H.
  destruct H as [H _]; [vm_compute; reflexivity|].
  apply (H "127.0.0.1"%string [2] 2); [vm_compute; reflexivity|].
  apply list_elem_of_singleton. reflexivity.
Defined.

(** ** Empty chunks *)






(** * Further properties *)

(** ** divide_ports at the edges *)

(** X1: [divide_ports] raises exactly when the chunk count is 0 or the list
    is empty and the count positive, and then it is always the division by
    zero; in every other case it returns chunks. *)
Theorem divide_ports_raises_iff (ports : list Z) (n : Z) :
  (n = 0 ∨ (ports = [] ∧ 0 < n) → divide_ports ports n = Raised zero_division)
  ∧ (¬ (n = 0 ∨ (ports = [] ∧ 0 < n)) →
     ∃ chunks, divide_ports ports n = Returned chunks).
Proof.
  unfold divide_ports, py_floordiv.
  destruct ports as [|p ports].
  - change (Z.of_nat (length (@nil Z))) with 0. split.
    + intros [-> | [_ Hn]]; [done|].
      assert ((n >? 0) = true) as -> by lia. done.
    + intros Hn.
      assert (n < 0) as Hneg.
      { destruct (Z.lt_trichotomy n 0) as [?|[?|?]]; [done|..]; exfalso; apply Hn; auto. }
      assert ((n >? 0) = false) as -> by lia.
      assert ((n =? 0) = false) as -> by lia. eauto.
  - set (len := Z.of_nat (length (p :: ports))).
    assert (0 < len) as Hlen by (unfold len; cbn [length]; lia).
    split.
    + intros [-> | [? _]]; [|done].
      assert ((0 >? len) = false) as -> by lia. done.
    + intros Hn.
      assert (n ≠ 0) as Hn0 by (intros ->; apply Hn; auto).
      destruct (n >? len) eqn:E.
      * assert ((len =? 0) = false) as -> by lia. eauto.
      * assert ((n =? 0) = false) as -> by lia. eauto.
Qed.

(** X2: with a negative chunk count [divide_ports] does not raise: it
    returns one chunk, the empty one, whatever the ports; every port is
    lost. *)
Theorem divide_ports_negative_loses_ports (ports : list Z) (n : Z) :
  n < 0 → divide_ports ports n = Returned [[]].
Proof.
  intros Hn. unfold divide_ports, py_floordiv.
  set (len := Z.of_nat (length ports)).
  assert (0 ≤ len) as Hlen by (unfold len; lia).
  assert ((n >? len) = false) as -> by lia.
  assert ((n =? 0) = false) as -> by lia.
  unfold py_range. replace (Z.to_nat n) with 0%nat by lia. simpl.
  do 2 f_equal. unfold py_slice_from. fold len.
  assert (len ≤ n * (len / n)) as Hge.
  { pose proof (Z.div_mod len n ltac:(lia)).
    pose proof (Z.mod_neg_bound len n Hn). lia. }
  unfold slice_bound.
  assert ((n * (len / n) <? 0) = false) as -> by lia.
  apply drop_ge. unfold len in *. lia.
Qed.

Lemma divide_ports_negative_loses_ports_witness :
  divide_ports [21; 22; 80; 443] (-3) = Returned [[]].
Proof. apply divide_ports_negative_loses_ports. lia. Defined.

(** ** scan_port and scan_ports *)

(** X3: a probe reports an open port exactly when the socket was created,
    the timeout was accepted, that is from 0 to below 9223372037 seconds, and
    the connect succeeded; nothing else passes the test [if is_open:]. *)
Theorem scan_port_open_iff w self ip port :
  (scan_port w self ip port = Returned (true, None)
   ↔ socket_create w ip port = None ∧ 0 ≤ timeout self < timeout_limit
     ∧ connect w ip port = None)
  ∧ (is_open_result (scan_port w self ip port) = true
     ↔ scan_port w self ip port = Returned (true, None)).
Proof.
  unfold scan_port.
  destruct (socket_create w ip port) as [e|].
  { split; split; try done. by intros [? _]. }
  destruct (timeout self <? 0) eqn:Et.
  { split; split; try done. intros (_ & ? & _). lia. }
  destruct (timeout_limit <=? timeout self) eqn:El.
  { split; split; try done. intros (_ & ? & _). lia. }
  destruct (connect w ip port) as [e|].
  { split; split; try done.
    - by destruct (exc_class e).
    - by intros (_ & _ & ?).
    - by destruct (exc_class e).
    - by destruct (exc_class e). }
  split; split; try done. intros _. repeat split; lia.
Qed.

(** What the loop body adds for one port. *)
Lemma scan_ports_collect_single port (r : result probe) :
  scan_ports_collect ([], []) port r
  = ((if is_open_result r then [port] else []),
     (match error_entry port r with Some entry => [entry] | None => [] end)).
Proof.
  destruct r as [[[] [msg|]]|e]; simpl; try done.
  all: by destruct (String.eqb msg "").
Qed.

Lemma batch_loop_in_order w self ip (ports : list Z) :
  batch_loop w self ip ([], []) ports
  = (batch_open w self ip ports, batch_errors w self ip ports).
Proof.
  induction ports as [|port ports IH]; [done|].
  change (port :: ports) with ([port] ++ ports) at 1.
  rewrite batch_loop_app, IH.
  change (batch_loop w self ip ([], []) [port])
    with (scan_ports_collect ([], []) port (scan_port w self ip port)).
  rewrite scan_ports_collect_single. cbn [fst snd].
  unfold batch_open, batch_errors. rewrite filter_cons. cbn [omap list_omap].
  f_equal.
  - destruct (is_open_result (scan_port w self ip port)); by case_decide.
  - by destruct (error_entry port (scan_port w self ip port)).
Qed.

Lemma scan_ports_lists w self ip (ports : list Z) (c : Z) :
  1 ≤ c →
  scan_ports w self ip ports c
  = Returned (batch_open w self ip ports, batch_errors w self ip ports).
Proof.
  intros Hc. assert ((c <=? 0) = false) as Hc0 by lia.
  unfold scan_ports. rewrite Hc0. f_equal. apply batch_loop_in_order.
Qed.

(** X4: with c >= 1, [scan_ports] returns the open ports and the error
    entries in the order of the port list, one per occurrence of a port,
    whatever the order in which the probes complete: the open ports are the
    ports whose probe reported open, the errors are the entries of the ports
    whose probe failed, and every run of the thread pool that ends the loop
    gives these two lists. *)
Theorem scan_ports_in_input_order w self ip (ports : list Z) (c : Z) :
  1 ≤ c →
  scan_ports w self ip ports c
  = Returned (batch_open w self ip ports, batch_errors w self ip ports)
  ∧ ∀ sched r,
      scan_ports_pool w self ip ports c sched = Some r →
      r = Returned (batch_open w self ip ports, batch_errors w self ip ports).
Proof.
  intros Hc. assert ((c <=? 0) = false) as Hc0 by lia.
  split.
  - unfold scan_ports. rewrite Hc0. f_equal. apply batch_loop_in_order.
  - intros sched r. unfold scan_ports_pool. rewrite Hc0.
    destruct (pool_run _ _ _ _ _ sched) as [a|] eqn:Hrun; [|done].
    intros [= <-]. f_equal. apply pool_run_in_order in Hrun. rewrite Hrun.
    apply batch_loop_in_order.
Qed.

Lemma scan_ports_in_input_order_witness :
  scan_ports mixed_world (mkPortScanner 1) "10.0.0.1" [82; 80; 81; 22; 80] 4
  = Returned (batch_open mixed_world (mkPortScanner 1) "10.0.0.1" [82; 80; 81; 22; 80],
              batch_errors mixed_world (mkPortScanner 1) "10.0.0.1" [82; 80; 81; 22; 80])
  ∧ scan_ports_pool mixed_world (mkPortScanner 1) "10.0.0.1" [82; 80] 4
      [Start; Start; Finish 1; Finish 0; Collect; Collect]
    = Some (Returned ([80], [(82, "[Errno 101] Network is unreachable"%string)])).
Proof.
  split.
  - apply (scan_ports_in_input_order mixed_world (mkPortScanner 1) "10.0.0.1"
             [82; 80; 81; 22; 80] 4). lia.
  - vm_compute. reflexivity.
Defined.

(** X5: with a negative timeout no probe gets as far as the connect: every
    probe raises, and a batch with c >= 1 reports no open port and one error
    entry for every port of the list, whatever the network does. *)
Theorem scan_ports_negative_timeout w self ip (ports : list Z) (c : Z) :
  timeout self < 0 → 1 ≤ c →
  (∀ port, ∃ e, scan_port w self ip port = Raised e)
  ∧ ∃ errors, scan_ports w self ip ports c = Returned ([], errors)
              ∧ errors.*1 = ports.
Proof.
  intros Ht Hc.
  assert (∀ port, ∃ e, scan_port w self ip port = Raised e) as Hraise.
  { intros port. unfold scan_port.
    destruct (socket_create w ip port); [eauto|].
    assert ((timeout self <? 0) = true) as -> by lia. eauto. }
  split; [done|].
  rewrite (scan_ports_lists w self ip ports c Hc).
  assert (batch_open w self ip ports = []) as ->.
  { unfold batch_open. induction ports as [|port ports IH]; [done|].
    rewrite filter_cons_False; [done|].
    destruct (Hraise port) as [e ->]. done. }
  eexists. split; [done|].
  unfold batch_errors. induction ports as [|port ports IH]; [done|].
  cbn [omap list_omap]. destruct (Hraise port) as [e ->].
  cbn [error_entry fmap list_fmap fst]. f_equal. apply IH.
Qed.

Lemma scan_ports_negative_timeout_witness :
  ∃ errors, scan_ports loopback_world (mkPortScanner (-1)) "127.0.0.1" [1; 2; 3] 100
            = Returned ([], errors)
            ∧ errors.*1 = [1; 2; 3].
Proof.
  apply (scan_ports_negative_timeout loopback_world (mkPortScanner (-1)) "127.0.0.1"
           [1; 2; 3] 100); simpl; lia.
Defined.

(** ** scan_network: what the dictionaries hold *)

Lemma scan_ports_returned w self ip (ports : list Z) c open_ports errors :
  scan_ports w self ip ports c = Returned (open_ports, errors) →
  1 ≤ c ∧ open_ports = batch_open w self ip ports
  ∧ errors = batch_errors w self ip ports.
Proof.
  intros H. destruct (Z.le_gt_cases 1 c) as [Hc|Hc].
  - rewrite (scan_ports_lists w self ip ports c Hc) in H.
    by injection H as <- <-.
  - unfold scan_ports in H. assert ((c <=? 0) = true) as Hc0 by lia.
    by rewrite Hc0 in H.
Qed.

Lemma scan_network_collect_returned (od : gmap string (list Z))
    (ed : gmap string (list (Z * string))) u open_ports errors :
  scan_network_collect (od, ed) u (Returned (open_ports, errors))
  = (dict_add od u.1 open_ports, dict_add ed u.1 errors).
Proof. by destruct open_ports, errors. Qed.

Section DictAdd.
Context {V : Type}.
Implicit Types (d : gmap string (list V)) (l : list V).

Lemma dict_add_ne d h l ip : ip ≠ h → dict_add d h l !! ip = d !! ip.
Proof.
  intros Hne. destruct l; [done|]. unfold dict_add, dict_extend.
  by rewrite lookup_insert_ne.
Qed.

Lemma dict_add_eq d h l : l ≠ [] → dict_add d h l !! h = Some (default [] (d !! h) ++ l).
Proof.
  intros Hl. destruct l; [done|]. unfold dict_add, dict_extend.
  by rewrite lookup_insert_eq.
Qed.

(** An entry is never removed or shortened. *)
Lemma dict_add_mono d h l ip ps :
  d !! ip = Some ps → ∃ ps', dict_add d h l !! ip = Some (ps ++ ps').
Proof.
  intros Hd. destruct (decide (ip = h)) as [->|Hne].
  - destruct l as [|x l]; [exists []; by rewrite app_nil_r|].
    rewrite dict_add_eq by done. rewrite Hd. by eexists.
  - rewrite dict_add_ne by done. exists []. by rewrite app_nil_r.
Qed.


Lemma dict_add_well_keyed hosts d h l :
  h ∈ hosts → well_keyed hosts d → well_keyed hosts (dict_add d h l).
Proof.
  intros Hh Hd ip ps. destruct (decide (ip = h)) as [->|Hne].
  - destruct l as [|x l]; [apply Hd|].
    rewrite dict_add_eq by done. intros [= <-]. split; [|done].
    by destruct (default [] (d !! h)).
  - rewrite dict_add_ne by done. apply Hd.
Qed.

End DictAdd.


Lemma unit_result_returned w self ip chunk open_ports errors :
  unit_result w self (ip, chunk) = Returned (open_ports, errors) →
  open_ports = batch_open w (port_scanner self) ip chunk
  ∧ errors = batch_errors w (port_scanner self) ip chunk.
Proof.
  unfold unit_result, _scan_ip. simpl.
  destruct (worker_fault w ip chunk); [done|].
  intros H%scan_ports_returned. tauto.
Qed.

Lemma gather_well_keyed w self hosts port_ranges :
  well_keyed hosts (gather w self (scan_units hosts port_ranges) (∅, ∅)).1
  ∧ well_keyed hosts (gather w self (scan_units hosts port_ranges) (∅, ∅)).2.
Proof.
  unfold gather.
  apply (foldl_invariant
           (fun acc : dicts => well_keyed hosts acc.1 ∧ well_keyed hosts acc.2)).
  - split; intros ip ps Hl; cbn [fst snd] in Hl; by rewrite lookup_empty in Hl.
  - intros [od ed] [h chunk] [Hh _]%elem_of_scan_units [Ho He].
    destruct (unit_result w self (h, chunk)) as [[o e]|ex]; [|done].
    rewrite scan_network_collect_returned.
    split; by apply dict_add_well_keyed.
Qed.

(** X6: in the two dictionaries a scan returns, every key is a host of the
    range and every entry is a non-empty list: a host with no open port is no
    key of the open-ports dictionary, a host with no error none of the errors
    dictionary. *)
Theorem scan_network_well_keyed w self port_ranges open_ports_dict errors_dict :
  scan_network w self port_ranges = Returned (open_ports_dict, errors_dict) →
  ∃ hosts, network_hosts w (ip_range self) = Returned hosts
           ∧ (∀ ip ps, open_ports_dict !! ip = Some ps → ps ≠ [] ∧ ip ∈ hosts)
           ∧ (∀ ip es, errors_dict !! ip = Some es → es ≠ [] ∧ ip ∈ hosts).
Proof.
  unfold scan_network.
  destruct (network_hosts w (ip_range self)) as [hosts|e]; [|done].
  destruct (num_processes self <=? 0); [done|].
  destruct (process_limit <=? num_processes self); [done|]. intros [= Hg].
  exists hosts. split; [done|].
  destruct (gather_well_keyed w self hosts port_ranges) as [Ho He].
  rewrite Hg in Ho, He. done.
Qed.

Lemma scan_network_well_keyed_witness :
  ∃ hosts, network_hosts mixed_world "10.0.0.0/30" = Returned hosts
           ∧ (∀ ip ps,
                 ({["10.0.0.1"%string := [80]]} : gmap string (list Z)) !! ip = Some ps →
                 ps ≠ [] ∧ ip ∈ hosts)
           ∧ (∀ ip es,
                 ({["10.0.0.1"%string :=
                      [(81, "[Errno 24] Too many open files"%string);
                       (82, "[Errno 101] Network is unreachable"%string)];
                    "10.0.0.2"%string :=
                      [(82, "[Errno 101] Network is unreachable"%string)]]}
                  : gmap string (list (Z * string))) !! ip = Some es →
                 es ≠ [] ∧ ip ∈ hosts).
Proof.
  apply (scan_network_well_keyed mixed_world
           (NetworkScanner_init "10.0.0.0/30" [80; 81; 82; 83] 2 100)
           [[80; 81]; [82; 83]; []]).
  vm_compute. reflexivity.
Defined.

Lemma gather_errors_sound w self units :
  ∀ ip es entry,
    (gather w self units (∅, ∅)).2 !! ip = Some es → entry ∈ es →
    ∃ chunk, (ip, chunk) ∈ units ∧ entry.1 ∈ chunk
             ∧ error_entry entry.1 (scan_port w (port_scanner self) ip entry.1)
               = Some entry.
Proof.
  unfold gather.
  apply (foldl_invariant
           (fun acc : dicts => ∀ ip es entry,
              acc.2 !! ip = Some es → entry ∈ es →
              ∃ chunk, (ip, chunk) ∈ units ∧ entry.1 ∈ chunk
                       ∧ error_entry entry.1
                           (scan_port w (port_scanner self) ip entry.1)
                         = Some entry)).
  - intros ip es entry Hl. cbn [snd] in Hl. by rewrite lookup_empty in Hl.
  - intros [od ed] [h chunk] Hu IH ip es entry.
    destruct (unit_result w self (h, chunk)) as [[o e]|ex] eqn:Er; [|apply IH].
    rewrite scan_network_collect_returned. cbn [fst snd].
    destruct (decide (ip = h)) as [->|Hne]; [|rewrite dict_add_ne by done; apply IH].
    destruct e as [|x e]; [apply IH|].
    rewrite dict_add_eq by done. intros [= <-] [Hin|Hin]%elem_of_app.
    + destruct (ed !! h) as [old|] eqn:Eo; simpl in Hin.
      * by eapply IH.
      * by apply not_elem_of_nil in Hin.
    + apply unit_result_returned in Er as [_ He]. rewrite He in Hin.
      apply list_elem_of_omap in Hin as (port & Hport & Hentry).
      assert (entry.1 = port) as Hp.
      { unfold error_entry in Hentry.
        destruct (scan_port w (port_scanner self) h port) as [[b [msg|]]|ex];
          [destruct (truthy (Some msg))| |]; by simplify_eq. }
      rewrite Hp. by exists chunk.
Qed.

(** X7: every error entry (port, message) a scan lists under a host is the
    entry of a probe of that host and port, the port in one of the chunks
    scanned: the probe raised and the message is that of the exception, or it
    returned a non-empty error message, this one. *)
Theorem scan_network_errors_sound w self port_ranges open_ports_dict errors_dict :
  scan_network w self port_ranges = Returned (open_ports_dict, errors_dict) →
  ∀ ip es port msg,
    errors_dict !! ip = Some es → (port, msg) ∈ es →
    (∃ chunk, chunk ∈ port_ranges ∧ port ∈ chunk)
    ∧ ((∃ e, scan_port w (port_scanner self) ip port = Raised e ∧ msg = exc_str e)
       ∨ (∃ is_open, scan_port w (port_scanner self) ip port
                     = Returned (is_open, Some msg) ∧ msg ≠ ""%string)).
Proof.
  unfold scan_network.
  destruct (network_hosts w (ip_range self)) as [hosts|e]; [|done].
  destruct (num_processes self <=? 0); [done|].
  destruct (process_limit <=? num_processes self); [done|].
  intros [= Hg] ip es port msg Hl Hin.
  destruct (gather_errors_sound w self (scan_units hosts port_ranges) ip es (port, msg))
    as (chunk & [_ Hc]%elem_of_scan_units & Hp & He); [by rewrite Hg | done |].
  split; [by exists chunk|].
  cbn [fst] in He. unfold error_entry in He.
  destruct (scan_port w (port_scanner self) ip port) as [[b [m|]]|ex]; [| done |].
  - right. exists b. simpl in He. destruct (String.eqb m "") eqn:Em; [done|].
    simpl in He. injection He as ->. split; [done|]. intros ->. done.
  - left. exists ex. by injection He as ->.
Qed.

Lemma scan_network_errors_sound_witness :
  (∃ chunk, chunk ∈ [[80; 81]; [82; 83]; []] ∧ 82 ∈ chunk)
  ∧ ((∃ e, scan_port mixed_world (mkPortScanner 1) "10.0.0.2" 82 = Raised e
           ∧ "[Errno 101] Network is unreachable"%string = exc_str e)
     ∨ (∃ is_open, scan_port mixed_world (mkPortScanner 1) "10.0.0.2" 82
                   = Returned (is_open, Some "[Errno 101] Network is unreachable"%string)
                   ∧ "[Errno 101] Network is unreachable"%string ≠ ""%string)).
Proof.
  eapply (scan_network_errors_sound mixed_world
            (NetworkScanner_init "10.0.0.0/30" [80; 81; 82; 83] 2 100)
            [[80; 81]; [82; 83]; []] _ _ ltac:(vm_compute; reflexivity)
            "10.0.0.2"%string
            [(82, "[Errno 101] Network is unreachable"%string)]).
  - vm_compute. reflexivity.
  - apply list_elem_of_singleton. reflexivity.
Defined.

(** What is under a host is kept, in place, by the units read later. *)
Lemma gather_mono w self units (acc : dicts) ip :
  (∀ ps, acc.1 !! ip = Some ps →
         ∃ ps', (gather w self units acc).1 !! ip = Some (ps ++ ps'))
  ∧ (∀ es, acc.2 !! ip = Some es →
           ∃ es', (gather w self units acc).2 !! ip = Some (es ++ es')).
Proof.
  revert acc. induction units as [|u units IH]; intros [od ed].
  { split; intros l Hl; exists []; by rewrite app_nil_r. }
  rewrite gather_cons.
  destruct (unit_result w self u) as [[o e]|ex]; [|apply IH].
  rewrite scan_network_collect_returned.
  destruct (IH (dict_add od u.1 o, dict_add ed u.1 e)) as [IHo IHe].
  split.
  - intros ps Hps. cbn [fst] in Hps.
    destruct (dict_add_mono od u.1 o ip ps Hps) as [ps1 H1].
    destruct (IHo _ H1) as [ps2 H2]. exists (ps1 ++ ps2). by rewrite app_assoc.
  - intros es Hes. cbn [snd] in Hes.
    destruct (dict_add_mono ed u.1 e ip es Hes) as [es1 H1].
    destruct (IHe _ H1) as [es2 H2]. exists (es1 ++ es2). by rewrite app_assoc.
Qed.

(** What a retrieved unit leaves in the dictionaries gathered over a list of
    units it belongs to. *)
Lemma gather_keeps_unit w self units ip chunk port :
  (ip, chunk) ∈ units → port ∈ chunk →
  is_returned (unit_result w self (ip, chunk)) = true →
  (scan_port w (port_scanner self) ip port = Returned (true, None) →
   ∃ ps, (gather w self units (∅, ∅)).1 !! ip = Some ps ∧ port ∈ ps)
  ∧ (∀ entry,
        error_entry port (scan_port w (port_scanner self) ip port) = Some entry →
        ∃ es, (gather w self units (∅, ∅)).2 !! ip = Some es ∧ entry ∈ es).
Proof.
  intros Hu Hport Hret.
  apply list_elem_of_split in Hu as (pre & post & ->).
  rewrite gather_app, gather_cons.
  destruct (unit_result w self (ip, chunk)) as [[o e]|ex] eqn:Er; [|done].
  destruct (unit_result_returned _ _ _ _ _ _ Er) as [Ho He].
  destruct (gather w self pre (∅, ∅)) as [od ed].
  rewrite scan_network_collect_returned. cbn [fst].
  destruct (gather_mono w self post (dict_add od ip o, dict_add ed ip e) ip)
    as [Hmo Hme].
  cbn [fst snd] in Hmo, Hme.
  split.
  - intros Hopen.
    assert (port ∈ o) as Hin.
    { rewrite Ho. apply list_elem_of_filter. split; [by rewrite Hopen | done]. }
    destruct (Hmo (default [] (od !! ip) ++ o)) as [ps' Hps].
    { apply dict_add_eq. intros ->. by apply not_elem_of_nil in Hin. }
    eexists. split; [done|]. rewrite !elem_of_app. auto.
  - intros entry Hentry.
    assert (entry ∈ e) as Hin.
    { rewrite He. apply list_elem_of_omap. eauto. }
    destruct (Hme (default [] (ed !! ip) ++ e)) as [es' Hes].
    { apply dict_add_eq. intros ->. by apply not_elem_of_nil in Hin. }
    eexists. split; [done|]. rewrite !elem_of_app. auto.
Qed.



(** X8: a scan loses nothing of a unit whose result it could retrieve: if
    the probe of a port of a scanned chunk reported the port open, the port is
    listed under its host; if the probe left an error entry, the entry is
    listed under its host; whatever happened to the other units. *)
Theorem scan_network_complete w self port_ranges hosts open_ports_dict errors_dict
    ip chunk port :
  network_hosts w (ip_range self) = Returned hosts →
  scan_network w self port_ranges = Returned (open_ports_dict, errors_dict) →
  ip ∈ hosts → chunk ∈ port_ranges → port ∈ chunk →
  is_returned (unit_result w self (ip, chunk)) = true →
  (scan_port w (port_scanner self) ip port = Returned (true, None) →
   ∃ ps, open_ports_dict !! ip = Some ps ∧ port ∈ ps)
  ∧ (∀ entry,
        error_entry port (scan_port w (port_scanner self) ip port) = Some entry →
        ∃ es, errors_dict !! ip = Some es ∧ entry ∈ es).
Proof.
  intros Hh Hscan Hip Hchunk Hport Hret.
  unfold scan_network in Hscan. rewrite Hh in Hscan.
  destruct (num_processes self <=? 0); [done|].
  destruct (process_limit <=? num_processes self); [done|].
  injection Hscan as Hg.
  assert ((ip, chunk) ∈ scan_units hosts port_ranges) as Hu
    by (by apply elem_of_scan_units).
  pose proof (gather_keeps_unit w self _ ip chunk port Hu Hport Hret) as H.
  by rewrite Hg in H.
Qed.

Lemma scan_network_complete_witness :
  (scan_port mixed_world (mkPortScanner 1) "10.0.0.1" 80 = Returned (true, None) →
   ∃ ps, ({["10.0.0.1"%string := [80]]} : gmap string (list Z)) !! "10.0.0.1"%string
         = Some ps ∧ 80 ∈ ps)
  ∧ (∀ entry,
        error_entry 80 (scan_port mixed_world (mkPortScanner 1) "10.0.0.1" 80)
        = Some entry →
        ∃ es, ({["10.0.0.1"%string :=
                   [(81, "[Errno 24] Too many open files"%string);
                    (82, "[Errno 101] Network is unreachable"%string)];
                 "10.0.0.2"%string :=
                   [(82, "[Errno 101] Network is unreachable"%string)]]}
               : gmap string (list (Z * string))) !! "10.0.0.1"%string = Some es
              ∧ entry ∈ es).
Proof.
  apply (scan_network_complete mixed_world
           (NetworkScanner_init "10.0.0.0/30" [80; 81; 82; 83] 2 100)
           [[80; 81]; [82; 83]; []] ["10.0.0.1"%string; "10.0.0.2"%string]
           _ _ "10.0.0.1"%string [80; 81] 80).
  - reflexivity.
  - vm_compute. reflexivity.
  - apply elem_of_cons. by left.
  - apply elem_of_cons. by left.
  - apply elem_of_cons. by left.
  - reflexivity.
Defined.










(** ** calculate_optimal_chunks *)

Lemma divide_ports_concat (ports : list Z) (n : Z) :
  ports ≠ [] → 1 ≤ n →
  ∃ chunks, divide_ports ports n = Returned chunks ∧ concat chunks = ports.
Proof.
  intros Hne Hn. eexists. split; [by apply divide_ports_take_drop|].
  rewrite concat_app, concat_front_chunks. simpl.
  by rewrite app_nil_r, take_drop.
Qed.

(** X12: the chunk count [calculate_optimal_chunks] proposes is half the
    number of CPUs and never less than 1, whatever the ports, so that
    [divide_ports] with it never raises on a non-empty port list and cuts it
    into chunks that hold every port once. *)
Theorem calculate_optimal_chunks_divides (cpu_count : Z) (ports : list Z) :
  1 ≤ calculate_optimal_chunks cpu_count ports
  ∧ (2 ≤ cpu_count → calculate_optimal_chunks cpu_count ports = cpu_count / 2)
  ∧ (cpu_count < 4 → calculate_optimal_chunks cpu_count ports = 1)
  ∧ (ports ≠ [] →
     ∃ chunks,
       divide_ports ports (calculate_optimal_chunks cpu_count ports) = Returned chunks
       ∧ concat chunks = ports).
Proof.
  unfold calculate_optimal_chunks.
  split; [lia|]. split; [|split].
  - intros H. assert (1 ≤ cpu_count / 2) by (apply Z.div_le_lower_bound; lia). lia.
  - intros H. assert (cpu_count / 2 < 2) by (apply Z.div_lt_upper_bound; lia). lia.
  - intros Hne. apply divide_ports_concat; [done | lia].
Qed.

(** ** The scan part of main *)

Example split_on_colon : split_on ":" "20:25" = ["20"; "25"]%string.
Proof. reflexivity. Qed.

Example split_on_commas : split_on "," "22,,80," = ["22"; ""; "80"; ""]%string.
Proof. reflexivity. Qed.

Lemma split_on_not_nil sep s : split_on sep s ≠ [].
Proof. destruct s as [|c s]; simpl; [done|]. by destruct (Ascii.eqb c sep), (split_on sep s). Qed.

Lemma split_on_no_sep sep s : contains sep s = false → split_on sep s = [s].
Proof.
  induction s as [|c s IH]; simpl; [done|].
  destruct (Ascii.eqb c sep); [done|]. intros H. by rewrite IH.
Qed.

Lemma split_on_app_sep sep a b :
  contains sep a = false →
  split_on sep (a +:+ String sep b) = a :: split_on sep b.
Proof.
  induction a as [|c a IH]; simpl.
  - intros _. by rewrite Ascii.eqb_refl.
  - destruct (Ascii.eqb c sep); [done|]. intros H. by rewrite IH.
Qed.

Lemma contains_app sep a b :
  contains sep (a +:+ b) = contains sep a || contains sep b.
Proof.
  induction a as [|c a IH]; simpl; [done|]. by destruct (Ascii.eqb c sep).
Qed.

Lemma contains_cons_sep sep b : contains sep (String sep b) = true.
Proof. simpl. by rewrite Ascii.eqb_refl. Qed.

(** Splitting and joining are inverse to each other. *)
Lemma join_split sep s : join_with sep (split_on sep s) = s.
Proof.
  induction s as [|c s IH]; simpl; [done|].
  destruct (Ascii.eqb_spec c sep) as [->|Hne].
  - pose proof (split_on_not_nil sep s).
    destruct (split_on sep s) as [|p ps] eqn:E; [done|]. simpl.
    by rewrite <- IH.
  - destruct (split_on sep s) as [|p ps] eqn:E; simpl.
    + by rewrite <- IH.
    + destruct ps; simpl in *; by rewrite <- IH.
Qed.

Lemma split_join sep pieces :
  pieces ≠ [] → Forall (fun piece => contains sep piece = false) pieces →
  split_on sep (join_with sep pieces) = pieces.
Proof.
  induction pieces as [|p pieces IH]; [done|]. intros _ Hall.
  apply Forall_cons in Hall as [Hp Hall].
  destruct pieces as [|q pieces]; simpl.
  - by apply split_on_no_sep.
  - rewrite split_on_app_sep by done. f_equal. by apply IH.
Qed.

Lemma contains_join sep sep' pieces :
  Forall (fun piece => contains sep piece = false) pieces → sep' ≠ sep →
  contains sep (join_with sep' pieces) = false.
Proof.
  intros Hall Hne. induction Hall as [|p pieces Hp Hall IH]; [done|].
  destruct pieces as [|q pieces]; simpl in *; [done|].
  rewrite contains_app, Hp. simpl.
  destruct (Ascii.eqb_spec sep' sep); [done|]. exact IH.
Qed.

Lemma py_range2_small a b : b - a < 2 ^ 60 → py_range2 a b = Returned (seqZ a (b - a)).
Proof.
  intros H. unfold py_range2.
  assert ((2 ^ 63 <=? b - a) = false) as -> by lia.
  assert ((2 ^ 60 <=? b - a) = false) as -> by lia. done.
Qed.

(** X13: a port range typed as start:end, two numerals around one colon,
    that spans at most 65535 ports is read as the ports from start to end,
    both included, in increasing order and each once; when end is below start
    it is read as no port at all, with no complaint. *)
Theorem parse_ports_range (int : string → result Z) (a b : string) (s e : Z) :
  contains ":" a = false → contains ":" b = false →
  int a = Returned s → int b = Returned e →
  e - s < 65535 →
  ∃ ports,
    parse_ports int (a +:+ ":" +:+ b) = Returned ports
    ∧ (∀ p, p ∈ ports ↔ s ≤ p ≤ e)
    ∧ (∀ (i : nat) p, ports !! i = Some p → p = s + Z.of_nat i)
    ∧ NoDup ports
    ∧ length ports = Z.to_nat (e - s + 1)
    ∧ (e < s → ports = []).
Proof.
  intros Ha Hb Hs He Hspan. exists (seqZ s (e + 1 - s)).
  split.
  { unfold parse_ports.
    change (a +:+ ":" +:+ b) with (a +:+ String ":" b).
    rewrite contains_app, Ha, contains_cons_sep. simpl.
    rewrite split_on_app_sep, split_on_no_sep by done.
    unfold unpack_two. rewrite Hs, He. apply py_range2_small. lia. }
  split; [intros p; rewrite elem_of_seqZ; lia|].
  split; [by intros i p [-> _]%lookup_seqZ|].
  split; [apply NoDup_seqZ|].
  split; [rewrite length_seqZ; f_equal; lia|].
  intros Hlt. apply seqZ_nil. lia.
Qed.

Lemma parse_ports_range_witness :
  ∃ ports,
    parse_ports decimal_int ("20" +:+ ":" +:+ "25") = Returned ports
    ∧ (∀ p, p ∈ ports ↔ 20 ≤ p ≤ 25)
    ∧ (∀ (i : nat) p, ports !! i = Some p → p = 20 + Z.of_nat i)
    ∧ NoDup ports
    ∧ length ports = Z.to_nat (25 - 20 + 1)
    ∧ (25 < 20 → ports = []).
Proof.
  apply (parse_ports_range decimal_int "20" "25" 20 25); first [reflexivity | lia].
Defined.

(** X14: an input with two colons or more is never read as ports: whatever
    stands between and after the colons, the parsing raises. *)
Theorem parse_ports_many_colons (int : string → result Z) (a b rest : string) :
  contains ":" a = false → contains ":" b = false →
  ∃ e, parse_ports int (a +:+ ":" +:+ b +:+ ":" +:+ rest) = Raised e.
Proof.
  intros Ha Hb. unfold parse_ports.
  change (a +:+ ":" +:+ b +:+ ":" +:+ rest)
    with (a +:+ String ":" (b +:+ String ":" rest)).
  rewrite contains_app, Ha, contains_cons_sep. simpl.
  rewrite split_on_app_sep, split_on_app_sep by done.
  pose proof (split_on_not_nil ":" rest).
  destruct (split_on ":" rest) as [|third more]; [done|].
  unfold unpack_two.
  destruct (int a); [|eauto]. destruct (int b); [|eauto].
  destruct (int third); eauto.
Qed.

Lemma parse_ports_many_colons_witness :
  ∃ e, parse_ports decimal_int ("1" +:+ ":" +:+ "2" +:+ ":" +:+ "3") = Raised e.
Proof. apply (parse_ports_many_colons decimal_int "1" "2" "3"); reflexivity. Defined.

(** X15: a list of two or more items around commas, none with a colon in it,
    is read item by item: when every item is an int the ports are these ints
    in the order typed, repeats kept; when one is not, its error is raised
    and the parsing does not fall back on the full range. *)
Theorem parse_ports_comma_list (int : string → result Z) (pieces : list string) :
  (2 ≤ length pieces)%nat →
  Forall (fun piece => contains "," piece = false) pieces →
  Forall (fun piece => contains ":" piece = false) pieces →
  parse_ports int (join_with "," pieces) = int_all int pieces
  ∧ (∀ ports, int_all int pieces = Returned ports →
              Forall2 (fun piece port => int piece = Returned port) pieces ports)
  ∧ (∀ piece e, piece ∈ pieces → int piece = Raised e →
                ∃ e', parse_ports int (join_with "," pieces) = Raised e').
Proof.
  intros Hlen Hcomma Hcolon.
  assert (parse_ports int (join_with "," pieces) = int_all int pieces) as Heq.
  { unfold parse_ports.
    rewrite contains_join by done.
    assert (contains "," (join_with "," pieces) = true) as ->.
    { destruct pieces as [|p [|q pieces]]; simpl in Hlen; [lia..|]. simpl.
      rewrite contains_app. simpl. by rewrite orb_true_r. }
    rewrite split_join; [done| |done]. intros ->. simpl in Hlen. lia. }
  split; [done|]. split.
  - clear. induction pieces as [|p pieces IH]; intros ports; simpl.
    + intros [= <-]. constructor.
    + destruct (int p) as [v|] eqn:Ev; [|done].
      destruct (int_all int pieces) as [vs|]; [|done].
      intros [= <-]. constructor; [done|]. by apply IH.
  - rewrite Heq. clear. intros piece e Hin Hraise.
    induction pieces as [|p pieces IH]; [by apply not_elem_of_nil in Hin|].
    simpl. destruct (int p) as [v|e0] eqn:Ev; [|eauto].
    apply elem_of_cons in Hin as [->|Hin]; [congruence|].
    destruct (IH Hin) as [e' ->]. eauto.
Qed.

Lemma parse_ports_comma_list_witness :
  parse_ports decimal_int (join_with "," ["22"; "80"; "22"]%string)
  = int_all decimal_int ["22"; "80"; "22"]%string
  ∧ (∀ ports, int_all decimal_int ["22"; "80"; "22"]%string = Returned ports →
              Forall2 (fun piece port => decimal_int piece = Returned port)
                      ["22"; "80"; "22"]%string ports)
  ∧ (∀ piece e, piece ∈ ["22"; "80"; "22"]%string → decimal_int piece = Raised e →
                ∃ e', parse_ports decimal_int (join_with "," ["22"; "80"; "22"]%string)
                      = Raised e').
Proof.
  apply (parse_ports_comma_list decimal_int ["22"; "80"; "22"]%string).
  - simpl. lia.
  - repeat constructor.
  - repeat constructor.
Defined.

Example parse_ports_trailing_comma :
  ∃ e, parse_ports decimal_int "80," = Raised e ∧ exc_class e = ValueError.
Proof. eexists. split; reflexivity. Qed.

(** X16: an input with no colon and no comma is one port when it is an
    int; when it is not, and only then, the parsing falls back on the full
    range, the 65535 ports from 1 to 65535. *)
Theorem parse_ports_single_or_all (int : string → result Z) (s : string) :
  contains ":" s = false → contains "," s = false →
  (∀ port, int s = Returned port → parse_ports int s = Returned [port])
  ∧ (∀ e, int s = Raised e → exc_class e = ValueError →
          ∃ ports, parse_ports int s = Returned ports
                   ∧ (∀ p, p ∈ ports ↔ 1 ≤ p ≤ 65535)
                   ∧ NoDup ports ∧ Z.of_nat (length ports) = 65535).
Proof.
  intros Hcolon Hcomma. unfold parse_ports. rewrite Hcolon, Hcomma. split.
  - by intros port ->.
  - intros e -> ->. exists (seqZ 1 65535). split; [done|].
    split; [intros p; rewrite elem_of_seqZ; lia|].
    split; [apply NoDup_seqZ|].
    rewrite length_seqZ. lia.
Qed.

Lemma parse_ports_single_or_all_witness :
  (∀ port, decimal_int "http" = Returned port →
           parse_ports decimal_int "http" = Returned [port])
  ∧ (∀ e, decimal_int "http" = Raised e → exc_class e = ValueError →
          ∃ ports, parse_ports decimal_int "http" = Returned ports
                   ∧ (∀ p, p ∈ ports ↔ 1 ≤ p ≤ 65535)
                   ∧ NoDup ports ∧ Z.of_nat (length ports) = 65535).
Proof. apply (parse_ports_single_or_all decimal_int "http"); reflexivity. Defined.

Example main_scan_loopback :
  main_scan loopback_world decimal_int 8 "" "1:3" "2" ""
  = Returned ({["127.0.0.1"%string := [2]]}, ∅).
Proof. vm_compute. reflexivity. Qed.

Example main_scan_reversed :
  main_scan loopback_world decimal_int 8 "" "25:20" "" "" = Raised zero_division.
Proof. vm_compute. reflexivity. Qed.

(** X17: a process count that is zero or negative never gives a scan:
    whatever the other answers and whatever the network, the scan part of
    main ends on an exception. *)
Theorem main_scan_needs_a_process w (int : string → result Z) cpu_count
    ip_range_input port_range_input num_processes_input max_workers_input n :
  int_or_default int num_processes_input (Z.max 1 cpu_count) = Returned n →
  n ≤ 0 →
  ∃ e, main_scan w int cpu_count ip_range_input port_range_input
                 num_processes_input max_workers_input = Raised e.
Proof.
  intros Hn Hle. unfold main_scan. rewrite Hn.
  destruct (int_or_default int max_workers_input 100) as [mw|]; [|eauto].
  destruct (parse_ports int _) as [ports|]; [|eauto].
  destruct (divide_ports ports n) as [chunks|]; [|eauto].
  unfold scan_network. cbn [ip_range num_processes NetworkScanner_init].
  destruct (network_hosts w _); [|eauto].
  assert ((n <=? 0) = true) as -> by lia. eauto.
Qed.

Lemma main_scan_needs_a_process_witness :
  ∃ e, main_scan loopback_world decimal_int 8 "" "1:3" "0" "" = Raised e.
Proof.
  apply (main_scan_needs_a_process loopback_world decimal_int 8 "" "1:3" "0" "" 0);
    [reflexivity | lia].
Defined.

Lemma divide_ports_nil_raises (n : Z) : 0 ≤ n → divide_ports [] n = Raised zero_division.
Proof.
  intros Hn. unfold divide_ports, py_floordiv.
  change (Z.of_nat (length (@nil Z))) with 0.
  destruct (n >? 0) eqn:E; [done|].
  assert ((n =? 0) = true) as -> by lia. done.
Qed.

(** X18: a range typed with its end below its start stops main before any
    scan: the ports read are none, and with a process count that is not
    negative the division into chunks raises the division by zero, whatever
    the network range and the network. *)
Theorem main_scan_reversed_range w (int : string → result Z) cpu_count
    ip_range_input (a b : string) num_processes_input max_workers_input
    (s e n mw : Z) :
  contains ":" a = false → contains ":" b = false →
  int a = Returned s → int b = Returned e → e < s →
  int_or_default int num_processes_input (Z.max 1 cpu_count) = Returned n → 0 ≤ n →
  int_or_default int max_workers_input 100 = Returned mw →
  parse_ports int (a +:+ ":" +:+ b) = Returned []
  ∧ main_scan w int cpu_count ip_range_input (a +:+ ":" +:+ b)
              num_processes_input max_workers_input
    = Raised zero_division.
Proof.
  intros Ha Hb Hs He Hlt Hn Hn0 Hmw.
  assert (parse_ports int (a +:+ ":" +:+ b) = Returned []) as Hparse.
  { unfold parse_ports.
    change (a +:+ ":" +:+ b) with (a +:+ String ":" b).
    rewrite contains_app, Ha, contains_cons_sep. simpl.
    rewrite split_on_app_sep, split_on_no_sep by done.
    unfold unpack_two. rewrite Hs, He.
    rewrite py_range2_small by lia. f_equal. apply seqZ_nil. lia. }
  split; [done|].
  unfold main_scan. rewrite Hn, Hmw.
  assert (or_default (a +:+ ":" +:+ b) "1:65535" = a +:+ ":" +:+ b) as ->.
  { by destruct a. }
  rewrite Hparse. by rewrite divide_ports_nil_raises.
Qed.

Lemma main_scan_reversed_range_witness :
  parse_ports decimal_int ("25" +:+ ":" +:+ "20") = Returned []
  ∧ main_scan loopback_world decimal_int 8 "" ("25" +:+ ":" +:+ "20") "4" ""
    = Raised zero_division.
Proof.
  apply (main_scan_reversed_range loopback_world decimal_int 8 "" "25" "20" "4" ""
           25 20 4 100); try reflexivity; lia.
Defined.


